(** * gostream: a room-scoped WebSocket relay (main.go)

    A shallow embedding of [main.go] and the properties of its room registry,
    of the per-message fan-out and of the session life cycle.

    The handler [handleWebSocket] runs once per connection, on a goroutine of
    its own.  It is embedded as a program in a small monad [Go] that threads
    the shared [Broadcaster] (its lock and its map) and the chronological list
    of the calls the goroutine makes to its collaborators: the HTTP response,
    the upgrader, the logger, the connections.  A piece of code returns,
    panics, waits for ever in a blocking call, or is killed by the runtime;
    [defer] runs its call on return and on panic.

    What the collaborators answer is an input: what [Upgrade] yields, what
    each [ReadMessage] and each [WriteMessage] does, and the order in which
    each [range] visits the keys of a room.  So is what the other sessions
    do: their joins and leaves are critical sections under the write lock,
    hence atomic for this session, and they take place while it waits in
    [ReadMessage], the one place where it holds no lock and blocks. *)

From stdpp Require Import gmap strings list fin_maps.
From Stdlib Require Import ZArith.

Open Scope string_scope.
Open Scope list_scope.

(** ** Data model *)

(** A [*websocket.Conn]: the code only compares such pointers and uses them as
    map keys, so a connection is the pointer's value. *)
Abbreviation Conn := positive (only parsing).

(** [map[string]map[*websocket.Conn]bool] (main.go:21). *)
Abbreviation Rooms := (gmap string (gmap positive bool)) (only parsing).

(** [sync.RWMutex], as seen by goroutines that take it: the number of read
    locks held and whether the write lock is held. *)
Record RWMutex := { readers : nat; writer : bool }.

(** [type Broadcaster struct] (main.go:13-22). *)
Record Broadcaster := { lock : RWMutex; rooms : Rooms }.

(** [NewBroadcaster] (main.go:25-29): the zero mutex and an empty, non-nil map. *)
Definition NewBroadcaster : Broadcaster :=
  {| lock := {| readers := 0; writer := false |}; rooms := ∅ |}.

(** Arguments of a [log.Printf] call. *)
Inductive Arg :=
| ArgS (s : string)      (* a string, for %s *)
| ArgD (n : nat)         (* an int, for %d *)
| ArgV (err : string).   (* an error, for %v *)

(** The calls the program makes to its collaborators. *)
Inductive Event :=
| EvHttpError (error : string) (code : Z)      (* http.Error(w, error, code) *)
| EvUpgrade                                    (* upgrader.Upgrade(w, r, nil) *)
| EvPrintf (format : string) (args : list Arg) (* log.Printf(format, args...) *)
| EvReadMessage (conn : Conn)                  (* conn.ReadMessage() *)
| EvWriteMessage (client : Conn) (messageType : Z) (data : list Byte.byte)
                                               (* client.WriteMessage(messageType, data) *)
| EvClose (conn : Conn)                        (* conn.Close() *)
| EvFatal (args : list Arg).                   (* log.Fatal(args...) *)

(** The state a goroutine runs in: the shared broadcaster, and the calls this
    goroutine has made so far. *)
Record World := { bc : Broadcaster; trace : list Event }.

(** ** The monad of handler code *)

(** Where a goroutine can wait for ever. *)
Inductive Wait :=
| InReadMessage (conn : Conn)
| InWriteMessage (client : Conn)
| InLock
| InRLock.

(** How a piece of Go code ends: it returns, it panics (deferred calls run
    while the panic unwinds), it never returns from a blocking call, or the
    runtime kills the process. *)
Inductive Outcome (A : Type) :=
| Done (a : A)
| Panicking (v : string)
| Blocked (w : Wait)
| Fatal (msg : string).
Arguments Done {A} a.
Arguments Panicking {A} v.
Arguments Blocked {A} w.
Arguments Fatal {A} msg.

Definition Go (A : Type) : Type := World → Outcome A * World.

Definition go_ret {A} (a : A) : Go A := λ w, (Done a, w).

Definition go_bind {A B} (m : Go A) (k : A → Go B) : Go B := λ w,
  match m w with
  | (Done a, w') => k a w'
  | (Panicking v, w') => (Panicking v, w')
  | (Blocked p, w') => (Blocked p, w')
  | (Fatal msg, w') => (Fatal msg, w')
  end.

#[global] Instance go_mret : MRet Go := @go_ret.
#[global] Instance go_mbind : MBind Go := λ A B k m, go_bind m k.

(** [defer d; body]: [d] runs when [body] returns and when it panics; it does
    not run when [body] never comes back or the process is killed.  A
    deferred call that returns leaves the way [body] ended as it was. *)
Definition defer {A} (d : Go unit) (body : Go A) : Go A := λ w,
  match body w with
  | (Done a, w') =>
      match d w' with
      | (Done _, w'') => (Done a, w'')
      | (Panicking v, w'') => (Panicking v, w'')
      | (Blocked p, w'') => (Blocked p, w'')
      | (Fatal msg, w'') => (Fatal msg, w'')
      end
  | (Panicking v, w') =>
      match d w' with
      | (Done _, w'') => (Panicking v, w'')
      | (Panicking v', w'') => (Panicking v', w'')
      | (Blocked p, w'') => (Blocked p, w'')
      | (Fatal msg, w'') => (Fatal msg, w'')
      end
  | (Blocked p, w') => (Blocked p, w')
  | (Fatal msg, w') => (Fatal msg, w')
  end.

Definition emit (e : Event) : Go unit := λ w,
  (Done (), {| bc := bc w; trace := trace w ++ [e] |}).

Definition get_rooms : Go Rooms := λ w, (Done (rooms (bc w)), w).

Definition set_rooms (rs : Rooms) : Go unit := λ w,
  (Done (), {| bc := {| lock := lock (bc w); rooms := rs |}; trace := trace w |}).

Definition set_lock (l : RWMutex) : Go unit := λ w,
  (Done (), {| bc := {| lock := l; rooms := rooms (bc w) |}; trace := trace w |}).

(** *** sync.RWMutex

    A handler's critical sections are short and run to their end, so between
    two steps of one handler the lock is free unless that handler holds it
    itself.  A goroutine that asks for a lock it cannot get waits. *)

(** [b.lock.Lock()]: waits while a reader or a writer holds the lock. *)
Definition Lock : Go unit := λ w,
  let l := lock (bc w) in
  if decide (readers l = 0 ∧ writer l = false)
  then set_lock {| readers := 0; writer := true |} w
  else (Blocked InLock, w).

(** [b.lock.Unlock()]: unlocking a mutex that is not write-locked is a fatal
    runtime error. *)
Definition Unlock : Go unit := λ w,
  let l := lock (bc w) in
  if writer l then set_lock {| readers := readers l; writer := false |} w
  else (Fatal "sync: Unlock of unlocked RWMutex", w).

(** [b.lock.RLock()]: waits while a writer holds the lock. *)
Definition RLock : Go unit := λ w,
  let l := lock (bc w) in
  if writer l then (Blocked InRLock, w)
  else set_lock {| readers := S (readers l); writer := false |} w.

(** [b.lock.RUnlock()]. *)
Definition RUnlock : Go unit := λ w,
  let l := lock (bc w) in
  match readers l with
  | S n => set_lock {| readers := n; writer := writer l |} w
  | 0 => (Fatal "sync: RUnlock of unlocked RWMutex", w)
  end.

(** ** The registry operations inside [handleWebSocket] *)

(** main.go:59-66, "Add the new client to the room". *)
Definition join (roomName : string) (conn : Conn) : Go unit :=
  Lock;;
  rs ← get_rooms;
  (if decide (is_Some (rs !! roomName)) then mret ()
   else set_rooms (<[roomName := ∅]> rs));;
  rs ← get_rooms;
  set_rooms (<[roomName := <[conn := true]> (rs !!! roomName)]> rs);;
  Unlock.

(** main.go:71-83, the deferred function that removes the client.
    [delete(b.rooms[roomName], conn)] changes the inner map of a room that
    exists and does nothing on the nil map of a room that does not. *)
Definition leave (roomName : string) (conn : Conn) : Go unit :=
  Lock;;
  rs ← get_rooms;
  set_rooms (alter (delete conn) roomName rs);;
  rs ← get_rooms;
  (if decide (size (rs !!! roomName) = 0) then
     set_rooms (delete roomName rs);;
     emit (EvPrintf "Room %s is now empty and has been deleted." [ArgS roomName])
   else mret ());;
  Unlock;;
  emit (EvPrintf "Client disconnected from room: %s" [ArgS roomName]).

(** The two registry operations, as other sessions perform them. *)
Inductive RegistryOp :=
| OpJoin (roomName : string) (conn : Conn)
| OpLeave (roomName : string) (conn : Conn).

Definition run_op (op : RegistryOp) : Go unit :=
  match op with
  | OpJoin roomName conn => join roomName conn
  | OpLeave roomName conn => leave roomName conn
  end.

Fixpoint run_ops (ops : list RegistryOp) : Go unit :=
  match ops with
  | [] => mret ()
  | op :: ops' => run_op op;; run_ops ops'
  end.

(** [len(b.rooms[roomName])]: the number of members; a room that is absent
    reads as the nil map, of length 0. *)
Definition member_count (rs : Rooms) (roomName : string) : nat :=
  size (rs !!! roomName).

(** ** Iterating over a room

    [for client := range m] visits every key of [m] once, in an order the Go
    runtime picks afresh for each loop.  The pick is an input: a list of
    numbers, each choosing the next key among those not yet visited. *)
Fixpoint shuffle {A} (seed : list nat) (l : list A) : list A :=
  match seed with
  | [] => l
  | i :: seed' =>
      let k := i `mod` length l in
      match l !! k with
      | Some x => x :: shuffle seed' (delete k l)
      | None => l
      end
  end.

Definition range (seed : list nat) (m : gmap Conn bool) : list Conn :=
  shuffle seed (map_to_list m).*1.

(** ** The connection, as the handler sees it *)

(** What one call of [client.WriteMessage] does: it returns nil, it returns an
    error, it panics, or it does not return (the library sets no write
    deadline, and none is set here). *)
Inductive WriteResult :=
| WriteOk
| WriteErr (err : string)
| WritePanic (v : string)
| WriteHang.

(** What one call of [conn.ReadMessage] does. *)
Inductive ReadResult :=
| ReadOk (messageType : Z) (message : list Byte.byte)
| ReadErr (err : string)
| ReadPanic (v : string).

(** [client.WriteMessage(messageType, message)] (main.go:104). *)
Definition WriteMessage (client : Conn) (messageType : Z)
    (message : list Byte.byte) (r : WriteResult) : Go (option string) := λ w,
  let w' := {| bc := bc w; trace := trace w ++ [EvWriteMessage client messageType message] |} in
  match r with
  | WriteOk => (Done None, w')
  | WriteErr err => (Done (Some err), w')
  | WritePanic v => (Panicking v, w')
  | WriteHang => (Blocked (InWriteMessage client), w')
  end.

(** [conn.ReadMessage()] (main.go:89). *)
Definition ReadMessage (conn : Conn) (r : ReadResult)
    : Go (Z * list Byte.byte + string) := λ w,
  let w' := {| bc := bc w; trace := trace w ++ [EvReadMessage conn] |} in
  match r with
  | ReadOk messageType message => (Done (inl (messageType, message)), w')
  | ReadErr err => (Done (inr err), w')
  | ReadPanic v => (Panicking v, w')
  end.

(** What other goroutines do meanwhile changes the broadcaster and adds
    nothing to the calls of this one. *)
Definition quietly (m : Go unit) : Go unit := λ w,
  let '(o, w') := m w in (o, {| bc := bc w'; trace := trace w |}).

(** One turn of the receive loop, as the environment decides it: what other
    sessions do to the registry while this one waits in [ReadMessage], what
    the read returns, the order in which [range] visits the room, and what
    each peer's [WriteMessage] does. *)
Record Turn := {
  others : list RegistryOp;
  read : ReadResult;
  seed : list nat;
  write : Conn → WriteResult;
}.

(** ** The relay *)

(** The body of [for client := range b.rooms[roomName]] (main.go:100-111),
    over the keys in the order [range] yields them. *)
Fixpoint fanout_loop (conn : Conn) (messageType : Z) (message : list Byte.byte)
    (write : Conn → WriteResult) (clients : list Conn) : Go unit :=
  match clients with
  | [] => mret ()
  | client :: clients' =>
      (if decide (client ≠ conn) then
         err ← WriteMessage client messageType message (write client);
         match err with
         | Some e => emit (EvPrintf "Error writing message to client: %v" [ArgV e])
         | None => mret ()
         end
       else mret ());;
      fanout_loop conn messageType message write clients'
  end.

(** main.go:97-113: the fan-out of one message, under the read lock. *)
Definition fanout (roomName : string) (conn : Conn) (messageType : Z)
    (message : list Byte.byte) (seed : list nat) (write : Conn → WriteResult)
    : Go unit :=
  RLock;;
  rs ← get_rooms;
  fanout_loop conn messageType message write (range seed (rs !!! roomName));;
  RUnlock.

(** main.go:86-114, the relay loop.  A session whose script is used up waits
    in [ReadMessage]. *)
Fixpoint relay_loop (roomName : string) (conn : Conn) (script : list Turn)
    : Go unit :=
  match script with
  | [] => λ w, (Blocked (InReadMessage conn),
                {| bc := bc w; trace := trace w ++ [EvReadMessage conn] |})
  | t :: script' =>
      quietly (run_ops (others t));;
      r ← ReadMessage conn (read t);
      match r with
      | inr _ => mret ()                       (* break *)
      | inl (messageType, message) =>
          fanout roomName conn messageType message (seed t) (write t);;
          relay_loop roomName conn script'
      end
  end.

(** ** The handler *)

(** [r.URL.Query()]: each key has a list of values. *)
Record Request := { query : gmap string (list string) }.

(** [url.Values.Get]: the first value of the key, or the empty string. *)
Definition Get (values : gmap string (list string)) (key : string) : string :=
  match values !! key with
  | Some (v :: _) => v
  | _ => ""
  end.

(** [http.StatusBadRequest]. *)
Definition StatusBadRequest : Z := 400.

(** [handleWebSocket] (main.go:41-115).  [upgraded] is what
    [upgrader.Upgrade] returns: a connection or an error. *)
Definition handleWebSocket (r : Request) (upgraded : Conn + string)
    (script : list Turn) : Go unit :=
  let roomName := Get (query r) "room" in
  if decide (roomName = "") then
    emit (EvHttpError "Room name is required" StatusBadRequest)
  else
    emit EvUpgrade;;
    match upgraded with
    | inr err => emit (EvPrintf "Error upgrading connection: %v" [ArgV err])
    | inl conn =>
        defer (emit (EvClose conn))
          (join roomName conn;;
           rs ← get_rooms;
           emit (EvPrintf "Client connected to room: %s. Total clients: %d"
                   [ArgS roomName; ArgD (member_count rs roomName)]);;
           defer (leave roomName conn) (relay_loop roomName conn script))
    end.

(** ** The process entry point *)

(** The handlers this program registers: the method value
    [broadcaster.handleWebSocket], bound to the [n]-th broadcaster made. *)
Inductive Handler := HandleWebSocketOf (n : nat).

(** What [main] has done when it stops, or when it starts to serve. *)
Record Process := {
  broadcasters : list Broadcaster;      (* the instances made by NewBroadcaster *)
  mux : list (string * Handler);        (* http.HandleFunc registrations *)
  listen : string;                      (* the address given to ListenAndServe *)
  output : list Event;                  (* what was logged *)
  exit_status : option Z;               (* None: the process is serving *)
}.

(** [os.Getenv]: the value, or the empty string when the variable is unset. *)
Definition Getenv (environ : gmap string string) (key : string) : string :=
  default "" (environ !! key).

(** [main] (main.go:117-136).  [ListenAndServe addr] is [None] when the server
    serves indefinitely and [Some err] when it returns; [log.Fatal] prints and
    calls [os.Exit(1)]. *)
Definition main (environ : gmap string string)
    (ListenAndServe : string → option string) : Process :=
  let broadcaster := NewBroadcaster in
  let handlers := [("/ws", HandleWebSocketOf 0)] in
  let port := Getenv environ "PORT" in
  let port := if decide (port = "") then "8080" else port in
  let out := [EvPrintf "Starting WebSocket server on port %s" [ArgS port]] in
  match ListenAndServe (":" ++ port)%string with
  | Some err =>
      {| broadcasters := [broadcaster]; mux := handlers; listen := (":" ++ port)%string;
         output := out ++ [EvFatal [ArgS "ListenAndServe:"; ArgV err]];
         exit_status := Some 1%Z |}
  | None =>
      {| broadcasters := [broadcaster]; mux := handlers; listen := (":" ++ port)%string;
         output := out; exit_status := None |}
  end.

(** ** Observations *)

(** The empty process state: a fresh broadcaster and nothing logged. *)
Definition start : World := {| bc := NewBroadcaster; trace := [] |}.

(** The members of a room, as a fan-out would find them. *)
Definition snapshotMembers (w : World) (roomName : string) : gset Conn :=
  dom (rooms (bc w) !!! roomName).

(** The lock is free. *)
Definition unlocked (w : World) : Prop :=
  lock (bc w) = {| readers := 0; writer := false |}.

(** Invariant 2: no room is present with zero members. *)
Definition no_empty_room (rs : Rooms) : Prop :=
  ∀ roomName m, rs !! roomName = Some m → m ≠ ∅.

(** The sends in a piece of trace: receiver, message kind and payload. *)
Fixpoint writes_of (evs : list Event) : list (Conn * Z * list Byte.byte) :=
  match evs with
  | [] => []
  | EvWriteMessage client messageType data :: evs' =>
      (client, messageType, data) :: writes_of evs'
  | _ :: evs' => writes_of evs'
  end.

(** A send that comes back, with nil or with an error. *)
Definition returns (r : WriteResult) : Prop :=
  match r with
  | WriteOk | WriteErr _ => True
  | WritePanic _ | WriteHang => False
  end.

#[global] Instance returns_dec r : Decision (returns r).
Proof. destruct r; simpl; apply _. Defined.

(** The registry after a join and after a leave. *)
Definition joined (roomName : string) (conn : Conn) (rs : Rooms) : Rooms :=
  <[roomName := <[conn := true]> (rs !!! roomName)]> rs.

Definition departed (roomName : string) (conn : Conn) (rs : Rooms) : Rooms :=
  if decide (size (delete conn (rs !!! roomName)) = 0)
  then delete roomName rs
  else alter (delete conn) roomName rs.

(** What a leave logs. *)
Definition leave_log (roomName : string) (conn : Conn) (rs : Rooms) : list Event :=
  (if decide (size (delete conn (rs !!! roomName)) = 0)
   then [EvPrintf "Room %s is now empty and has been deleted." [ArgS roomName]]
   else []) ++
  [EvPrintf "Client disconnected from room: %s" [ArgS roomName]].

(** The peers of [conn] among the keys visited. *)
Definition peers_of (conn : Conn) (clients : list Conn) : list Conn :=
  filter (λ c, c ≠ conn) clients.

(** The calls a fan-out over [peers] makes, and how it ends. *)
Fixpoint fanout_events (messageType : Z) (message : list Byte.byte)
    (write : Conn → WriteResult) (peers : list Conn) : list Event :=
  match peers with
  | [] => []
  | p :: peers' =>
      EvWriteMessage p messageType message ::
      match write p with
      | WriteOk => fanout_events messageType message write peers'
      | WriteErr e =>
          EvPrintf "Error writing message to client: %v" [ArgV e] ::
          fanout_events messageType message write peers'
      | WritePanic _ | WriteHang => []
      end
  end.

Fixpoint fanout_outcome (write : Conn → WriteResult) (peers : list Conn)
    : Outcome unit :=
  match peers with
  | [] => Done ()
  | p :: peers' =>
      match write p with
      | WriteOk | WriteErr _ => fanout_outcome write peers'
      | WritePanic v => Panicking v
      | WriteHang => Blocked (InWriteMessage p)
      end
  end.

(** The peers written to: all up to the first whose send does not return. *)
Fixpoint attempted (write : Conn → WriteResult) (peers : list Conn) : list Conn :=
  match peers with
  | [] => []
  | p :: peers' =>
      p :: (if decide (returns (write p)) then attempted write peers' else [])
  end.

(** The world in which the fan-out's loop runs: one more read lock held. *)
Definition rlocked (w : World) : Broadcaster :=
  {| lock := {| readers := S (readers (lock (bc w))); writer := false |};
     rooms := rooms (bc w) |}.

(** The lock as a fan-out that did not reach [RUnlock] leaves it. *)
Definition read_locked (w : World) : Prop :=
  lock (bc w) = {| readers := 1; writer := false |}.

(** The calls the relay loop of [conn] makes: reads of [conn], sends to
    others, and the log line of a failed send. *)
Definition relay_event (conn : Conn) (e : Event) : Prop :=
  match e with
  | EvReadMessage c => c = conn
  | EvWriteMessage p _ _ => p ≠ conn
  | EvPrintf format _ => format = "Error writing message to client: %v"
  | _ => False
  end.

(** A turn that brings a message all of whose sends return. *)
Definition turn_returns (t : Turn) : Prop :=
  (∃ messageType message, read t = ReadOk messageType message) ∧
  ∀ p, returns (write t p).

(** How the loop ends on a read that brings no message. *)
Definition exit_of (r : ReadResult) : Outcome unit :=
  match r with
  | ReadPanic v => Panicking v
  | _ => Done ()
  end.

(** The log line of a leave of [roomName]. *)
Definition disconnected (roomName : string) : Event :=
  EvPrintf "Client disconnected from room: %s" [ArgS roomName].

(** Whether [conn] is a member of [roomName] after [ops], given whether it
    was one before: the last operation on that room and handle decides. *)
Fixpoint member_after (roomName : string) (conn : Conn)
    (ops : list RegistryOp) (before : bool) : bool :=
  match ops with
  | [] => before
  | OpJoin r c :: ops' =>
      member_after roomName conn ops'
        (if decide (r = roomName ∧ c = conn) then true else before)
  | OpLeave r c :: ops' =>
      member_after roomName conn ops'
        (if decide (r = roomName ∧ c = conn) then false else before)
  end.



(** What the other sessions do to the registry during [turns], in order. *)
Definition others_of (turns : list Turn) : list RegistryOp :=
  concat (others <$> turns).

(** The calls of the handler of an accepted connection before its first read. *)
Definition accepted_prefix (roomName : string) (conn : Conn) (rs : Rooms)
    : list Event :=
  [EvUpgrade;
   EvPrintf "Client connected to room: %s. Total clients: %d"
     [ArgS roomName; ArgD (member_count (joined roomName conn rs) roomName)]].

(** The registry after a sequence of joins and leaves. *)
Fixpoint apply_ops (ops : list RegistryOp) (rs : Rooms) : Rooms :=
  match ops with
  | [] => rs
  | OpJoin r c :: ops' => apply_ops ops' (joined r c rs)
  | OpLeave r c :: ops' => apply_ops ops' (departed r c rs)
  end.

(** The calls the relay loop of [conn] makes during [turns], from the
    registry [rs]: each turn's read and, when it brings a message, the
    fan-out over the room as the other sessions have left it. *)
Fixpoint turns_events (roomName : string) (conn : Conn) (turns : list Turn)
    (rs : Rooms) : list Event :=
  match turns with
  | [] => []
  | t :: turns' =>
      let rs' := apply_ops (others t) rs in
      EvReadMessage conn ::
      match read t with
      | ReadOk messageType message =>
          fanout_events messageType message (write t)
            (peers_of conn (range (seed t) (rs' !!! roomName)))
      | _ => []
      end ++ turns_events roomName conn turns' rs'
  end.

(** The calls a session of [conn] may make on connections: it reads from its
    own, writes to others, and closes its own. *)
Definition own_call (conn : Conn) (e : Event) : Prop :=
  match e with
  | EvReadMessage c => c = conn
  | EvWriteMessage p _ _ => p ≠ conn
  | EvClose c => c = conn
  | _ => True
  end.

(** ** Scenarios *)

(** [websocket.TextMessage]. *)
Definition TextMessage : Z := 1.

(** The payload "hi". *)
Definition hi : list Byte.byte := [Byte.x68; Byte.x69].

(** Connections 1, 2 and 3 are in the room "lobby"; the lock is free. *)
Definition lobby : World :=
  {| bc := {| lock := {| readers := 0; writer := false |};
              rooms := {[ "lobby" := {[ 1%positive := true; 2%positive := true;
                                        3%positive := true ]} ]} |};
     trace := [] |}.

(** Connection 2 is alone in the lobby. *)
Definition lobby_of_2 : World :=
  {| bc := {| lock := {| readers := 0; writer := false |};
              rooms := {[ "lobby" := {[ 2%positive := true ]} ]} |};
     trace := [] |}.

(** The request [/ws?room=lobby]. *)
Definition ws_room_lobby : Request := {| query := {[ "room" := ["lobby"] ]} |}.

(** The peers of connection 1 in the lobby are visited in the order 2, 3; the
    send to 2 fails, the send to 3 succeeds. *)
Definition one_send_fails : Turn :=
  {| others := []; read := ReadOk TextMessage hi; seed := [1];
     write := λ c, if decide (c = 2%positive) then WriteErr "broken pipe" else WriteOk |}.

(** An unresponsive peer: the send to connection 2 does not return; a send to
    connection 3 would succeed. *)
Definition peer_2_hangs : Turn :=
  {| others := []; read := ReadOk TextMessage hi; seed := [1];
     write := λ c, if decide (c = 2%positive) then WriteHang else WriteOk |}.

(** A later message of the same sender, with every peer responsive. *)
Definition next_message : Turn :=
  {| others := []; read := ReadOk TextMessage [Byte.x6f; Byte.x6b]; seed := [1];
     write := λ _, WriteOk |}.

(** A message arrives and the send to the peer panics, as the library's
    [WriteMessage] does when two goroutines write to a connection at once. *)
Definition send_panics : Turn :=
  {| others := []; read := ReadOk TextMessage hi; seed := [];
     write := λ _, WritePanic "concurrent write to websocket connection" |}.

(** The connection fails: [ReadMessage] returns an error. *)
Definition receive_fails : Turn :=
  {| others := []; read := ReadErr "unexpected EOF"; seed := [];
     write := λ _, WriteOk |}.

(** While the session waits for its message, connection 3 leaves the lobby
    and connection 4 joins it. *)
Definition lobby_changes : Turn :=
  {| others := [OpLeave "lobby" 3; OpJoin "lobby" 4];
     read := ReadOk TextMessage hi; seed := [2; 0];
     write := λ _, WriteOk |}.

(** * Proofs *)

Ltac go_unfold :=
  unfold mbind, go_mbind, go_bind, mret, go_mret, go_ret, emit, get_rooms,
    set_rooms, set_lock in *.

Lemma join_unlocked roomName conn w :
  unlocked w →
  join roomName conn w =
    (Done (), {| bc := {| lock := lock (bc w);
                          rooms := joined roomName conn (rooms (bc w)) |};
                 trace := trace w |}).
Proof.
  destruct w as [[l rs] tr]. unfold unlocked. simpl. intros ->.
  unfold join, Lock, Unlock, joined. go_unfold. simpl.
  destruct (decide (is_Some (rs !! roomName))) as [Hs|Hn]; simpl.
  - done.
  - rewrite insert_insert_eq. rewrite lookup_total_insert_eq.
    apply eq_None_not_Some in Hn. by rewrite (lookup_total_alt rs), Hn.
Qed.

Lemma leave_unlocked roomName conn w :
  unlocked w →
  leave roomName conn w =
    (Done (), {| bc := {| lock := lock (bc w);
                          rooms := departed roomName conn (rooms (bc w)) |};
                 trace := trace w ++ leave_log roomName conn (rooms (bc w)) |}).
Proof.
  destruct w as [[l rs] tr]. unfold unlocked. simpl. intros ->.
  unfold leave, Lock, Unlock, departed, leave_log. go_unfold. simpl.
  assert (alter (delete conn) roomName rs !!! roomName
          = delete conn (rs !!! roomName)) as ->.
  { rewrite !lookup_total_alt, lookup_alter. case_decide; [|done].
    destruct (rs !! roomName); simpl; [done|]. by rewrite delete_empty. }
  destruct (decide (size (delete conn (rs !!! roomName)) = 0)); simpl.
  - rewrite <- app_assoc. simpl. by rewrite delete_alter_eq.
  - done.
Qed.

(** ** Iteration order *)

Lemma shuffle_perm {A} (seed : list nat) (l : list A) : shuffle seed l ≡ₚ l.
Proof.
  revert l. induction seed as [|i seed IH]; intros l; simpl; [done|].
  destruct (l !! (i `mod` length l)) as [x|] eqn:Hx; [|done].
  rewrite IH. symmetry. by apply delete_Permutation.
Qed.

Lemma range_perm seed (m : gmap Conn bool) : range seed m ≡ₚ (map_to_list m).*1.
Proof. apply shuffle_perm. Qed.

Lemma range_NoDup seed (m : gmap Conn bool) : NoDup (range seed m).
Proof. rewrite range_perm. apply NoDup_fst_map_to_list. Qed.

Lemma elem_of_range seed (m : gmap Conn bool) c : c ∈ range seed m ↔ c ∈ dom m.
Proof.
  rewrite range_perm, elem_of_dom. split.
  - intros [[c' v] [-> Hv]]%list_elem_of_fmap. simpl.
    apply elem_of_map_to_list in Hv. eauto.
  - intros [v Hv]. apply list_elem_of_fmap. exists (c, v). split; [done|].
    by apply elem_of_map_to_list.
Qed.

(** Every order of the keys is one that [range] can yield. *)
Lemma shuffle_complete {A} (l l' : list A) : l' ≡ₚ l → ∃ seed, shuffle seed l = l'.
Proof.
  revert l. induction l' as [|x l' IH]; intros l Hp.
  - apply Permutation_nil_l in Hp as ->. by exists [].
  - assert (x ∈ l) as [k Hk]%list_elem_of_lookup by (rewrite <- Hp; left).
    destruct (IH (delete k l)) as [seed Hseed].
    { apply (inj (cons x)). by rewrite Hp, <- delete_Permutation. }
    exists (k :: seed). simpl.
    assert (k < length l) by (by eapply lookup_lt_Some).
    rewrite Nat.mod_small by done. by rewrite Hk, Hseed.
Qed.

(** ** The registry invariant *)

Lemma joined_no_empty roomName conn rs :
  no_empty_room rs → no_empty_room (joined roomName conn rs).
Proof.
  intros Hinv r m. unfold joined.
  destruct (decide (roomName = r)) as [->|Hne].
  - rewrite lookup_insert_eq. intros [= <-]. apply insert_non_empty.
  - rewrite lookup_insert_ne by done. apply Hinv.
Qed.

Lemma departed_no_empty roomName conn rs :
  no_empty_room rs → no_empty_room (departed roomName conn rs).
Proof.
  intros Hinv r m. unfold departed. case_decide as Hsz.
  - destruct (decide (roomName = r)) as [->|Hne].
    + by rewrite lookup_delete_eq.
    + rewrite lookup_delete_ne by done. apply Hinv.
  - destruct (decide (roomName = r)) as [->|Hne].
    + rewrite lookup_alter_eq. rewrite lookup_total_alt in Hsz.
      destruct (rs !! r) as [m'|]; simpl in *; [|done].
      intros [= <-] Hm. apply Hsz. by rewrite Hm.
    + rewrite lookup_alter_ne by done. apply Hinv.
Qed.

Lemma run_op_unlocked op w :
  unlocked w →
  ∃ w', run_op op w = (Done (), w') ∧ unlocked w' ∧
        (no_empty_room (rooms (bc w)) → no_empty_room (rooms (bc w'))).
Proof.
  intros Hu. destruct op as [r c|r c]; simpl.
  - rewrite join_unlocked by done. eexists. split; [done|]. split; [done|].
    simpl. apply joined_no_empty.
  - rewrite leave_unlocked by done. eexists. split; [done|]. split; [done|].
    simpl. apply departed_no_empty.
Qed.

Lemma run_ops_unlocked ops w :
  unlocked w →
  ∃ w', run_ops ops w = (Done (), w') ∧ unlocked w' ∧
        (no_empty_room (rooms (bc w)) → no_empty_room (rooms (bc w'))).
Proof.
  revert w. induction ops as [|op ops IH]; intros w Hu; simpl.
  - by exists w.
  - destruct (run_op_unlocked op w Hu) as (w1 & E1 & Hu1 & Hi1).
    destruct (IH w1 Hu1) as (w2 & E2 & Hu2 & Hi2).
    exists w2. go_unfold. rewrite E1. auto.
Qed.

Lemma no_empty_room_present rs roomName :
  no_empty_room rs →
  is_Some (rs !! roomName) ↔ 0 < member_count rs roomName.
Proof.
  intros Hinv. unfold member_count. rewrite lookup_total_alt. split.
  - intros [m Hm]. rewrite Hm. simpl. specialize (Hinv _ _ Hm).
    apply map_size_non_empty_iff in Hinv. lia.
  - destruct (rs !! roomName); [eauto|]. simpl. rewrite map_size_empty. lia.
Qed.

(** C2. Starting from the registry [NewBroadcaster] makes, after every prefix
    of every sequence of joins and leaves, each performed to its end, a room
    identifier is present in the mapping if and only if the room has at least
    one member; and a leave after which the room has no member removes the
    room entry in that same operation. *)
Theorem room_present_iff_it_has_members
    (ops : list RegistryOp) (k : nat) (roomName : string) :
  ∃ w, run_ops (take k ops) start = (Done (), w) ∧
    (is_Some (rooms (bc w) !! roomName)
       ↔ 0 < member_count (rooms (bc w)) roomName) ∧
    ∀ conn, snapshotMembers w roomName ⊆ {[conn]} →
      ∃ w', leave roomName conn w = (Done (), w') ∧
            rooms (bc w') !! roomName = None.
Proof.
  destruct (run_ops_unlocked (take k ops) start) as (w & E & Hu & Hinv); [done|].
  exists w. split; [done|]. split.
  - apply no_empty_room_present, Hinv. intros r m. simpl. by rewrite lookup_empty.
  - intros conn Hsub. rewrite leave_unlocked by done. eexists. split; [done|].
    simpl. unfold departed. unfold snapshotMembers in Hsub.
    assert (delete conn (rooms (bc w) !!! roomName) = ∅) as Hemp.
    { apply map_eq. intros c. rewrite lookup_empty.
      destruct (decide (c = conn)) as [->|Hne]; [by rewrite lookup_delete_eq|].
      rewrite lookup_delete_ne by done. apply not_elem_of_dom. set_solver. }
    rewrite Hemp, map_size_empty. simpl. by rewrite lookup_delete_eq.
Qed.

(** ** Join and leave *)

Lemma alter_delete_absent (conn : Conn) roomName (rs : Rooms) :
  conn ∉ dom (rs !!! roomName) → alter (delete conn) roomName rs = rs.
Proof.
  intros Hc. apply map_eq. intros r.
  destruct (decide (roomName = r)) as [->|Hne]; [|by rewrite lookup_alter_ne].
  rewrite lookup_alter_eq. rewrite lookup_total_alt in Hc.
  destruct (rs !! r) as [m|]; simpl in *; [|done].
  f_equal. apply delete_id. by apply not_elem_of_dom.
Qed.

Lemma departed_absent roomName (conn : Conn) (rs : Rooms) :
  no_empty_room rs → conn ∉ dom (rs !!! roomName) → departed roomName conn rs = rs.
Proof.
  intros Hinv Hc. unfold departed.
  assert (delete conn (rs !!! roomName) = rs !!! roomName) as ->
    by (by apply delete_id, not_elem_of_dom).
  case_decide as Hsz; [|by apply alter_delete_absent].
  apply delete_id. apply map_size_empty_iff in Hsz.
  rewrite lookup_total_alt in Hsz.
  destruct (rs !! roomName) as [m|] eqn:Hm; [|done].
  simpl in Hsz. by destruct (Hinv _ _ Hm).
Qed.

(** C7. On a registry that satisfies its invariant (no room is present with
    zero members) and whose lock is free, leave never fails: it returns for
    every room identifier and connection handle, and when the handle is not a
    member of the room, or the room is absent, the lock and the mapping are
    exactly as before. *)
Theorem leave_of_a_non_member_is_a_no_op
    (roomName : string) (conn : Conn) (w : World) :
  unlocked w → no_empty_room (rooms (bc w)) →
  ∃ w', leave roomName conn w = (Done (), w') ∧
        (conn ∉ snapshotMembers w roomName → bc w' = bc w).
Proof.
  intros Hu Hinv. rewrite leave_unlocked by done. eexists. split; [done|].
  intros Hc. simpl. rewrite departed_absent by done. by destruct w as [[??]?].
Qed.

Lemma leave_of_a_non_member_is_a_no_op_witness :
  ∃ w', leave "lobby" 2 {| bc := {| lock := {| readers := 0; writer := false |};
                                     rooms := {[ "lobby" := {[ 1%positive := true ]} ]} |};
                            trace := [] |} = (Done (), w') ∧
        (2%positive ∉ ({[ 1%positive ]} : gset Conn) →
         rooms (bc w') = {[ "lobby" := {[ 1%positive := true ]} ]}).
Proof.
  destruct (leave_of_a_non_member_is_a_no_op "lobby" 2
    {| bc := {| lock := {| readers := 0; writer := false |};
                rooms := {[ "lobby" := {[ 1%positive := true ]} ]} |};
       trace := [] |}) as (w' & E & H).
  - reflexivity.
  - simpl. intros r m [<- <-]%lookup_singleton_Some. apply insert_non_empty.
  - exists w'. split; [exact E|]. intros Hn. rewrite H; [reflexivity|].
    unfold snapshotMembers. simpl. rewrite lookup_total_singleton_eq.
    rewrite dom_singleton_L. exact Hn.
Defined.

(** C8. When the lock is free, join returns for every room identifier and
    connection handle; afterwards the room entry is present, its members are
    the former ones and the handle, the other rooms are as before; joining the
    same handle into the same room again changes nothing; and the handle
    occurs exactly once among the members an iteration of the room visits. *)
Theorem join_succeeds_and_is_idempotent
    (roomName : string) (conn : Conn) (w : World) :
  unlocked w →
  ∃ w', join roomName conn w = (Done (), w') ∧
        is_Some (rooms (bc w') !! roomName) ∧
        snapshotMembers w' roomName = {[conn]} ∪ snapshotMembers w roomName ∧
        (∀ r, r ≠ roomName → rooms (bc w') !! r = rooms (bc w) !! r) ∧
        join roomName conn w' = (Done (), w') ∧
        ∀ seed, length (filter (λ c, c = conn)
                          (range seed (rooms (bc w') !!! roomName))) = 1.
Proof.
  intros Hu. rewrite join_unlocked by done. eexists. split; [done|].
  unfold snapshotMembers, joined. simpl.
  rewrite lookup_insert_eq, lookup_total_insert_eq, dom_insert_L.
  repeat split.
  - by eexists.
  - intros r Hr. by rewrite lookup_insert_ne.
  - rewrite join_unlocked by done. simpl. unfold joined.
    by rewrite lookup_total_insert_eq, !insert_insert_eq.
  - intros sd. set (m := <[conn:=true]> (rooms (bc w) !!! roomName)).
    assert (conn ∈ range sd m) as Hin
      by (apply elem_of_range; unfold m; rewrite dom_insert_L; set_solver).
    pose proof (range_NoDup sd m) as Hnd. revert Hin Hnd.
    generalize (range sd m). intros l. induction l as [|c l IH]; intros Hin Hnd.
    + by apply elem_of_nil in Hin.
    + apply NoDup_cons in Hnd as [Hc Hnd]. rewrite filter_cons.
      destruct (decide (c = conn)) as [->|Hne]; simpl.
      * f_equal. clear IH Hin Hnd. induction l as [|c' l IH]; [done|].
        rewrite filter_cons. apply not_elem_of_cons in Hc as [Hne Hc].
        destruct (decide (c' = conn)); [congruence|]. by apply IH.
      * apply IH; [|done]. apply elem_of_cons in Hin as [|]; [congruence|done].
Qed.

Lemma join_succeeds_and_is_idempotent_witness :
  ∃ w', join "lobby" 1 start = (Done (), w') ∧
        join "lobby" 1 w' = (Done (), w').
Proof.
  destruct (join_succeeds_and_is_idempotent "lobby" 1 start)
    as (w' & E & _ & _ & _ & E' & _).
  - reflexivity.
  - exists w'. split; [exact E|exact E'].
Defined.

(** ** The fan-out *)

Lemma fanout_loop_run conn messageType message write clients w :
  fanout_loop conn messageType message write clients w =
    (fanout_outcome write (peers_of conn clients),
     {| bc := bc w;
        trace := trace w ++
          fanout_events messageType message write (peers_of conn clients) |}).
Proof.
  revert w. induction clients as [|c clients IH]; intros w; simpl.
  - rewrite app_nil_r. by destruct w.
  - unfold peers_of. rewrite filter_cons. fold (peers_of conn clients).
    destruct (decide (c ≠ conn)) as [Hne|Heq]; simpl.
    + unfold WriteMessage. go_unfold.
      destruct (write c); simpl; try done.
      * rewrite IH. simpl. by rewrite <- app_assoc.
      * rewrite IH. simpl. by rewrite <- !app_assoc.
    + go_unfold. apply IH.
Qed.

Lemma writes_of_fanout_events messageType message write peers :
  writes_of (fanout_events messageType message write peers) =
    (λ p, (p, messageType, message)) <$> attempted write peers.
Proof.
  induction peers as [|p peers IH]; simpl; [done|].
  destruct (write p); simpl; by rewrite ?IH.
Qed.

Lemma attempted_all write peers :
  Forall (λ p, returns (write p)) peers → attempted write peers = peers.
Proof.
  induction 1 as [|p peers Hp _ IH]; simpl; [done|].
  by rewrite decide_True, IH.
Qed.

Lemma fanout_outcome_all write peers :
  Forall (λ p, returns (write p)) peers → fanout_outcome write peers = Done ().
Proof.
  induction 1 as [|p peers Hp _ IH]; simpl; [done|]. by destruct (write p).
Qed.


Lemma fanout_run roomName conn messageType message seed write w :
  writer (lock (bc w)) = false →
  let peers := peers_of conn (range seed (rooms (bc w) !!! roomName)) in
  fanout roomName conn messageType message seed write w =
    (fanout_outcome write peers,
     {| bc := match fanout_outcome write peers with
              | Done _ => bc w
              | _ => rlocked w
              end;
        trace := trace w ++ fanout_events messageType message write peers |}).
Proof.
  intros Hw peers. unfold fanout, RLock, RUnlock. go_unfold. rewrite Hw. simpl.
  rewrite fanout_loop_run. simpl. fold peers.
  destruct (fanout_outcome write peers); simpl; try done.
  destruct a. do 2 f_equal. destruct w as [[[n wr] rs] tr]. simpl in *. by subst.
Qed.

Lemma fanout_write_locked roomName conn messageType message seed write w :
  writer (lock (bc w)) = true →
  fanout roomName conn messageType message seed write w = (Blocked InRLock, w).
Proof. intros Hw. unfold fanout, RLock. go_unfold. by rewrite Hw. Qed.

Lemma elem_of_peers_of conn c clients :
  c ∈ peers_of conn clients ↔ c ∈ clients ∧ c ≠ conn.
Proof. unfold peers_of. by rewrite list_elem_of_filter, (comm and). Qed.



(** C10. A fan-out never changes the room-membership mapping, however it
    ends: when sends fail, when a send panics or does not return, or when the
    read lock cannot be taken; a fan-out that completes leaves the lock as it
    found it too; and when the room entry is absent the fan-out makes no call
    at all. *)
Theorem fanout_leaves_the_registry_unchanged
    (roomName : string) (conn : Conn) (messageType : Z)
    (message : list Byte.byte) (seed : list nat) (write : Conn → WriteResult)
    (w : World) :
  let r := fanout roomName conn messageType message seed write w in
  rooms (bc r.2) = rooms (bc w) ∧
  (r.1 = Done () → bc r.2 = bc w) ∧
  (rooms (bc w) !! roomName = None → trace r.2 = trace w).
Proof.
  simpl. destruct (writer (lock (bc w))) eqn:Hw.
  - by rewrite fanout_write_locked.
  - rewrite fanout_run by done. simpl. split; [|split].
    + by destruct (fanout_outcome write _).
    + by destruct (fanout_outcome write _).
    + intros Hr. rewrite lookup_total_alt, Hr. simpl.
      assert (range seed (∅ : gmap Conn bool) = []) as ->.
      { apply Permutation_nil_r. by rewrite range_perm, map_to_list_empty. }
      simpl. apply app_nil_r.
Qed.

(** ** The receive loop *)

Lemma quietly_run_ops_unlocked ops w :
  unlocked w →
  ∃ b, quietly (run_ops ops) w = (Done (), {| bc := b; trace := trace w |}) ∧
       lock b = lock (bc w) ∧
       (no_empty_room (rooms (bc w)) → no_empty_room (rooms b)).
Proof.
  intros Hu. destruct (run_ops_unlocked ops w Hu) as (w1 & E & Hu1 & Hinv).
  exists (bc w1). unfold quietly. rewrite E. split; [done|].
  split; [|done]. unfold unlocked in *. congruence.
Qed.

(** One turn whose read yields a message: the registry is what the other
    sessions made of it, and the fan-out runs from there. *)
Lemma relay_loop_message roomName conn t script messageType message w :
  unlocked w → read t = ReadOk messageType message →
  ∃ b, quietly (run_ops (others t)) w = (Done (), {| bc := b; trace := trace w |}) ∧
       lock b = lock (bc w) ∧
       relay_loop roomName conn (t :: script) w =
         (fanout roomName conn messageType message (seed t) (write t);;
          relay_loop roomName conn script)
           {| bc := b; trace := trace w ++ [EvReadMessage conn] |}.
Proof.
  intros Hu Hr. destruct (quietly_run_ops_unlocked (others t) w Hu) as (b & E & Hl & _).
  exists b. split; [done|]. split; [done|].
  simpl. unfold ReadMessage. go_unfold. rewrite E, Hr. done.
Qed.

(** One turn whose read fails or panics ends the loop. *)
Lemma relay_loop_stop roomName conn t script w :
  unlocked w →
  ∃ b, quietly (run_ops (others t)) w = (Done (), {| bc := b; trace := trace w |}) ∧
       lock b = lock (bc w) ∧
       (∀ err, read t = ReadErr err →
          relay_loop roomName conn (t :: script) w =
            (Done (), {| bc := b; trace := trace w ++ [EvReadMessage conn] |})) ∧
       (∀ v, read t = ReadPanic v →
          relay_loop roomName conn (t :: script) w =
            (Panicking v, {| bc := b; trace := trace w ++ [EvReadMessage conn] |})).
Proof.
  intros Hu. destruct (quietly_run_ops_unlocked (others t) w Hu) as (b & E & Hl & _).
  exists b. split; [done|]. split; [done|].
  split; intros x Hr; simpl; unfold ReadMessage; go_unfold; by rewrite E, Hr.
Qed.

Lemma fanout_events_relay conn messageType message write clients :
  Forall (relay_event conn)
    (fanout_events messageType message write (peers_of conn clients)).
Proof.
  assert (Forall (λ p, p ≠ conn) (peers_of conn clients)) as H.
  { apply Forall_forall. by intros p [_ ?]%elem_of_peers_of. }
  induction H as [|p peers Hp _ IH]; simpl; [done|].
  constructor; [done|]. destruct (write p); try done. by constructor.
Qed.

Lemma go_bind_run {A B} (m : Go A) (k : A → Go B) w o w' :
  m w = (o, w') →
  (m ≫= k) w =
    match o with
    | Done a => k a w'
    | Panicking v => (Panicking v, w')
    | Blocked p => (Blocked p, w')
    | Fatal msg => (Fatal msg, w')
    end.
Proof. intros E. go_unfold. by rewrite E. Qed.

(** How the relay loop ends, from a free lock: it comes back (on a receive
    error, or with the panic of a receive) with the lock free, it waits for
    the next message, or a send panicked or did not return and the read lock
    is still held. *)
Lemma relay_loop_inv roomName conn script w :
  unlocked w →
  ∃ o w' evs,
    relay_loop roomName conn script w = (o, w') ∧
    trace w' = trace w ++ EvReadMessage conn :: evs ∧
    Forall (relay_event conn) evs ∧
    match o with
    | Done _ => unlocked w'
    | Panicking _ => unlocked w' ∨ read_locked w'
    | Blocked (InReadMessage c) => c = conn ∧ unlocked w'
    | Blocked (InWriteMessage _) => read_locked w'
    | Blocked _ | Fatal _ => False
    end.
Proof.
  revert w. induction script as [|t script IH]; intros w Hu.
  { simpl. eexists _, _, []. simpl. repeat split; try done. }
  destruct (read t) as [messageType message|err|v] eqn:Hr.
  - destruct (relay_loop_message roomName conn t script _ _ w Hu Hr)
      as (b & _ & Hl & ->).
    set (w2 := {| bc := b; trace := trace w ++ [EvReadMessage conn] |}).
    assert (unlocked w2) as Hu2 by (unfold unlocked in *; simpl; congruence).
    assert (lock (bc w2) = {| readers := 0; writer := false |}) as Hl2 by done.
    assert (writer (lock (bc w2)) = false) as Hw2 by (by rewrite Hl2).
    rewrite (go_bind_run _ _ _ _ _ (fanout_run roomName conn messageType message
                                      (seed t) (write t) w2 Hw2)).
    set (peers := peers_of conn (range (seed t) (rooms (bc w2) !!! roomName))).
    pose proof (fanout_events_relay conn messageType message (write t)
                  (range (seed t) (rooms (bc w2) !!! roomName))) as Hev.
    fold peers in Hev.
    destruct (fanout_outcome (write t) peers) as [[]|v|p|msg] eqn:Ho.
    + edestruct (IH {| bc := bc w2; trace := trace w2 ++
          fanout_events messageType message (write t) peers |})
        as (o & w' & evs & E & Ht & Hf & Hend); [done|].
      exists o, w', (fanout_events messageType message (write t) peers ++
                     EvReadMessage conn :: evs).
      split; [done|]. split; [|split; [|done]].
      * rewrite Ht. simpl. by rewrite <- !app_assoc.
      * apply Forall_app. split; [done|]. by constructor.
    + eexists _, _, _. split; [done|]. simpl. split; [by rewrite <- app_assoc|].
      split; [done|]. right. unfold read_locked, rlocked. simpl in *. by rewrite Hl2.
    + assert (∃ c, p = InWriteMessage c) as [c ->].
      { clear -Ho. induction peers as [|q peers IH]; simpl in Ho; [done|].
        destruct (write t q); try done; eauto. injection Ho as <-. eauto. }
      eexists _, _, _. split; [done|]. simpl. split; [by rewrite <- app_assoc|].
      split; [done|]. unfold read_locked, rlocked. simpl in *. by rewrite Hl2.
    + exfalso. clear -Ho. induction peers as [|q peers IH]; simpl in Ho; [done|].
      destruct (write t q); try done.
  - destruct (relay_loop_stop roomName conn t script w Hu) as (b & _ & Hl & He & _).
    rewrite (He _ Hr).
    eexists _, _, []. split; [done|]. simpl. repeat split; try done.
    unfold unlocked in *. simpl. congruence.
  - destruct (relay_loop_stop roomName conn t script w Hu) as (b & _ & Hl & _ & Hp).
    rewrite (Hp _ Hr).
    eexists _, _, []. split; [done|]. simpl. repeat split; try done.
    left. unfold unlocked in *. simpl. congruence.
Qed.

Lemma fanout_events_failed messageType message write peers p err :
  p ∈ peers → Forall (λ q, returns (write q)) peers → write p = WriteErr err →
  ∃ evs1 evs2,
    fanout_events messageType message write peers =
      evs1 ++ EvWriteMessage p messageType message ::
              EvPrintf "Error writing message to client: %v" [ArgV err] :: evs2.
Proof.
  intros Hin Hall Hp. induction Hall as [|q peers Hq _ IH]; simpl.
  { by apply elem_of_nil in Hin. }
  destruct (decide (q = p)) as [->|Hne].
  - rewrite Hp. by eexists [], _.
  - apply elem_of_cons in Hin as [|Hin]; [congruence|].
    destruct (IH Hin) as (evs1 & evs2 & ->).
    destruct (write q) eqn:Hw; try done.
    + by eexists (_ :: evs1), _.
    + by eexists (_ :: _ :: evs1), _.
Qed.

(** A turn in which every send returns: what is sent, what is logged, and
    where the loop goes on. *)
Lemma relay_turn_returns
    (roomName : string) (conn : Conn) (t : Turn) (script : list Turn)
    (messageType : Z) (message : list Byte.byte) (w : World) :
  unlocked w → read t = ReadOk messageType message →
  (∀ p, returns (write t p)) →
  ∃ b evs,
    quietly (run_ops (others t)) w = (Done (), {| bc := b; trace := trace w |}) ∧
    lock b = lock (bc w) ∧
    Forall (relay_event conn) evs ∧
    relay_loop roomName conn (t :: script) w =
      relay_loop roomName conn script
        {| bc := b; trace := trace w ++ EvReadMessage conn :: evs |} ∧
    (∀ c, c ∈ (writes_of evs).*1.*1 ↔ c ∈ dom (rooms b !!! roomName) ∖ {[conn]}) ∧
    (∀ p err, p ∈ dom (rooms b !!! roomName) → p ≠ conn →
       write t p = WriteErr err →
       ∃ evs1 evs2, evs = evs1 ++ EvWriteMessage p messageType message ::
         EvPrintf "Error writing message to client: %v" [ArgV err] :: evs2).
Proof.
  intros Hu Hr Hret.
  destruct (relay_loop_message roomName conn t script _ _ w Hu Hr)
    as (b & Eb & Hl & E).
  set (w2 := {| bc := b; trace := trace w ++ [EvReadMessage conn] |}) in *.
  assert (lock (bc w2) = {| readers := 0; writer := false |}) as Hl2
    by (simpl; unfold unlocked in Hu; congruence).
  assert (writer (lock (bc w2)) = false) as Hw2 by (by rewrite Hl2).
  set (peers := peers_of conn (range (seed t) (rooms b !!! roomName))).
  assert (Forall (λ p, returns (write t p)) peers) as Hall
    by (apply Forall_forall; auto).
  exists b, (fanout_events messageType message (write t) peers).
  split; [done|]. split; [done|]. split; [apply fanout_events_relay|].
  split; [|split].
  - rewrite E.
    rewrite (go_bind_run _ _ _ _ _ (fanout_run roomName conn messageType message
                                      (seed t) (write t) w2 Hw2)).
    simpl. fold peers. rewrite (fanout_outcome_all _ _ Hall). simpl.
    by rewrite <- app_assoc.
  - intros c. rewrite writes_of_fanout_events, attempted_all by done.
    rewrite <- !list_fmap_compose, list_fmap_id. unfold peers.
    rewrite elem_of_peers_of, elem_of_range. set_solver.
  - intros p err Hp Hne Hwp. apply fanout_events_failed; [|done..].
    unfold peers. by rewrite elem_of_peers_of, elem_of_range.
Qed.

(** C5. In a turn of the receive loop in which every send returns, some of
    them with an error: each failed send is followed at once by its log line;
    the message is still sent to every member of the room other than the
    sender; the mapping is what it was when the message was read, so no
    failed peer is removed; and the session goes on with the rest of its loop
    from there, its next call being a [ReadMessage] on its own connection. *)
Theorem failed_sends_are_logged_and_ignored
    (roomName : string) (conn : Conn) (t : Turn) (script : list Turn)
    (messageType : Z) (message : list Byte.byte) (w : World) :
  unlocked w → read t = ReadOk messageType message →
  (∀ p, returns (write t p)) →
  ∃ b evs,
    quietly (run_ops (others t)) w = (Done (), {| bc := b; trace := trace w |}) ∧
    relay_loop roomName conn (t :: script) w =
      relay_loop roomName conn script
        {| bc := b; trace := trace w ++ EvReadMessage conn :: evs |} ∧
    (∀ c, c ∈ (writes_of evs).*1.*1 ↔ c ∈ dom (rooms b !!! roomName) ∖ {[conn]}) ∧
    (∀ p err, p ∈ dom (rooms b !!! roomName) → p ≠ conn →
       write t p = WriteErr err →
       ∃ evs1 evs2, evs = evs1 ++ EvWriteMessage p messageType message ::
         EvPrintf "Error writing message to client: %v" [ArgV err] :: evs2) ∧
    ∃ o w' evs',
      relay_loop roomName conn (t :: script) w = (o, w') ∧
      trace w' = trace w ++ EvReadMessage conn :: evs ++ EvReadMessage conn :: evs'.
Proof.
  intros Hu Hr Hret.
  destruct (relay_turn_returns roomName conn t script _ _ w Hu Hr Hret)
    as (b & evs & Eb & Hl & _ & E & Hsent & Hlog).
  exists b, evs. repeat (split; [done|]).
  rewrite E.
  edestruct (relay_loop_inv roomName conn script) as (o & w' & evs' & E' & Ht & _);
    [|exists o, w', evs'; split; [exact E'|]].
  - unfold unlocked in *. simpl. congruence.
  - rewrite Ht. simpl. by rewrite <- app_assoc.
Qed.

Lemma failed_sends_are_logged_and_ignored_witness :
  ∃ b evs,
    quietly (run_ops []) lobby = (Done (), {| bc := b; trace := [] |}) ∧
    relay_loop "lobby" 1 [one_send_fails] lobby =
      relay_loop "lobby" 1 [] {| bc := b; trace := [] ++ EvReadMessage 1 :: evs |} ∧
    (∀ c, c ∈ (writes_of evs).*1.*1 ↔ c ∈ dom (rooms b !!! "lobby") ∖ {[1%positive]}).
Proof.
  destruct (failed_sends_are_logged_and_ignored "lobby" 1 one_send_fails []
              TextMessage hi lobby) as (b & evs & E1 & E2 & H & _).
  - reflexivity.
  - reflexivity.
  - intros p. unfold one_send_fails. simpl. destruct (decide (p = 2%positive)); exact I.
  - exists b, evs. split; [exact E1|]. split; [exact E2|exact H].
Defined.

Lemma fanout_events_hang messageType message write before p after :
  Forall (λ q, returns (write q)) before → write p = WriteHang →
  fanout_outcome write (before ++ p :: after) = Blocked (InWriteMessage p) ∧
  attempted write (before ++ p :: after) = before ++ [p] ∧
  Forall (λ e, ∀ c, e ≠ EvReadMessage c)
    (fanout_events messageType message write (before ++ p :: after)).
Proof.
  intros Hall Hp. induction Hall as [|q before Hq _ (IH1 & IH2 & IH3)]; simpl.
  - destruct (decide (returns (write p))) as [Hr|_]; [by rewrite Hp in Hr|].
    rewrite Hp. repeat split; try done. by repeat constructor.
  - rewrite decide_True by done. rewrite IH1, IH2.
    destruct (write q); try done; repeat split; try done; by repeat constructor.
Qed.

(** C6 fails on the code.  Connections 1, 2 and 3 are in the lobby; 1 sends
    "hi", the fan-out visits 2 before 3, and the send to 2 does not return.
    The session of 1 then stays in that send: its calls are the read and the
    send to 2, it does not read its next message, and it is not true that
    every member other than the sender whose send would return is sent the
    message, for connection 3 is not. *)
Lemma an_unresponsive_peer_stalls_the_fanout :
  let r := relay_loop "lobby" 1 [peer_2_hangs; next_message] lobby in
  r.1 = Blocked (InWriteMessage 2) ∧
  trace r.2 = [EvReadMessage 1; EvWriteMessage 2 TextMessage hi] ∧
  ¬ (∀ p, p ∈ snapshotMembers lobby "lobby" → p ≠ 1%positive →
          returns (write peer_2_hangs p) →
          p ∈ (writes_of (trace r.2)).*1.*1).
Proof.
  split; [|split]; [vm_compute; reflexivity..|].
  intros H. specialize (H 3%positive).
  assert (3%positive ∈ [2%positive]) as Hin.
  { apply H.
    - apply elem_of_dom. vm_compute. by eexists.
    - discriminate.
    - exact I. }
  apply elem_of_cons in Hin as [Hin|Hin]; [discriminate|].
  by apply elem_of_nil in Hin.
Qed.

(** C6, as the code has it.  The sends of a fan-out are made one after the
    other by the broadcasting session itself, with no deadline.  When the
    sends to the peers visited first return (with nil or an error) and the
    send to the next peer does not return, the message has been sent to those
    peers and to that one, in that order, and to no peer after it; the session
    stays in that send, holding the read lock, and makes no further
    [ReadMessage] call; the mapping is unchanged. *)
Theorem a_send_that_does_not_return_stalls_the_fanout
    (roomName : string) (conn : Conn) (messageType : Z)
    (message : list Byte.byte) (seed : list nat) (write : Conn → WriteResult)
    (script : list Turn) (w : World) (before after : list Conn) (p : Conn) :
  writer (lock (bc w)) = false →
  peers_of conn (range seed (rooms (bc w) !!! roomName)) = before ++ p :: after →
  Forall (λ q, returns (write q)) before →
  write p = WriteHang →
  ∃ evs,
    (fanout roomName conn messageType message seed write;;
     relay_loop roomName conn script) w =
      (Blocked (InWriteMessage p), {| bc := rlocked w; trace := trace w ++ evs |}) ∧
    (writes_of evs).*1.*1 = before ++ [p] ∧
    Forall (λ e, ∀ c, e ≠ EvReadMessage c) evs.
Proof.
  intros Hw Hpeers Hall Hp.
  destruct (fanout_events_hang messageType message write before p after Hall Hp)
    as (Ho & Ha & Hev).
  exists (fanout_events messageType message write (before ++ p :: after)).
  rewrite (go_bind_run _ _ _ _ _ (fanout_run roomName conn messageType message
                                    seed write w Hw)).
  simpl. rewrite Hpeers, Ho. split; [done|]. split; [|done].
  rewrite writes_of_fanout_events, Ha.
  by rewrite <- !list_fmap_compose, list_fmap_id.
Qed.

Lemma a_send_that_does_not_return_stalls_the_fanout_witness :
  ∃ evs,
    (fanout "lobby" 1 TextMessage hi [1] (write peer_2_hangs);;
     relay_loop "lobby" 1 [next_message]) lobby =
      (Blocked (InWriteMessage 2), {| bc := rlocked lobby; trace := [] ++ evs |}) ∧
    (writes_of evs).*1.*1 = [] ++ [2%positive] ∧
    Forall (λ e, ∀ c, e ≠ EvReadMessage c) evs.
Proof.
  apply (a_send_that_does_not_return_stalls_the_fanout "lobby" 1 TextMessage hi
           [1] (write peer_2_hangs) [next_message] lobby [] [3%positive] 2).
  - reflexivity.
  - vm_compute. reflexivity.
  - constructor.
  - reflexivity.
Defined.

(** ** Rejected requests *)

(** C3. A request whose room parameter is missing, has no value, or has the
    empty string as its first value is answered with 400 "Room name is
    required" and nothing else happens: no upgrade is attempted, no join, and
    the broadcaster (lock and mapping) is exactly as before. *)
Theorem request_without_room_is_rejected
    (r : Request) (upgraded : Conn + string) (script : list Turn) (w : World) :
  query r !! "room" = None ∨ query r !! "room" = Some [] ∨
    (∃ vs, query r !! "room" = Some ("" :: vs)) →
  handleWebSocket r upgraded script w =
    (Done (), {| bc := bc w;
                 trace := trace w ++ [EvHttpError "Room name is required" 400] |}).
Proof.
  intros H. unfold handleWebSocket.
  assert (Get (query r) "room" = "") as ->.
  { unfold Get. destruct H as [->|[->|[vs ->]]]; done. }
  done.
Qed.

Lemma request_without_room_is_rejected_witness :
  handleWebSocket {| query := ∅ |} (inl 7%positive) [next_message] lobby =
    (Done (), {| bc := bc lobby;
                 trace := [] ++ [EvHttpError "Room name is required" 400] |}).
Proof.
  apply (request_without_room_is_rejected {| query := ∅ |} (inl 7%positive)
           [next_message] lobby).
  left. reflexivity.
Defined.

(** ** The entry point *)

(** C9. [main] takes the port from the environment variable PORT and uses
    8080 when it is unset (or empty), registers the session handler for the
    one broadcaster it made at the path /ws and nothing else, listens on that
    port, and when [ListenAndServe] returns an error the process exits with
    status 1; otherwise it keeps serving. *)
Theorem main_binds_ws_on_the_configured_port
    (environ : gmap string string) (ListenAndServe : string → option string) :
  let p := main environ ListenAndServe in
  let port := match environ !! "PORT" with
              | Some v => if decide (v = "") then "8080" else v
              | None => "8080"
              end in
  listen p = (":" ++ port)%string ∧
  (environ !! "PORT" = None → listen p = ":8080") ∧
  broadcasters p = [NewBroadcaster] ∧
  mux p = [("/ws", HandleWebSocketOf 0)] ∧
  (∀ err, ListenAndServe (listen p) = Some err →
     ∃ status, exit_status p = Some status ∧ status ≠ 0%Z) ∧
  (ListenAndServe (listen p) = None → exit_status p = None).
Proof.
  simpl. unfold main, Getenv.
  destruct (environ !! "PORT") as [v|] eqn:Hv; simpl.
  - destruct (decide (v = "")) as [->|Hne]; simpl;
      destruct (ListenAndServe _) eqn:HL; simpl; rewrite ?HL;
      repeat split; try done; intros; try congruence; by exists 1%Z.
  - destruct (ListenAndServe _) eqn:HL; simpl; rewrite ?HL;
      repeat split; try done; intros; try congruence; by exists 1%Z.
Qed.

(** ** Membership after a join and after a leave *)

Lemma dom_joined roomName (conn : Conn) (rs : Rooms) r :
  dom (joined roomName conn rs !!! r) =
    if decide (r = roomName) then {[conn]} ∪ dom (rs !!! roomName)
    else dom (rs !!! r).
Proof.
  unfold joined. case_decide as Hr.
  - subst. by rewrite lookup_total_insert_eq, dom_insert_L.
  - by rewrite lookup_total_insert_ne.
Qed.

Lemma dom_departed roomName (conn : Conn) (rs : Rooms) r :
  dom (departed roomName conn rs !!! r) =
    if decide (r = roomName) then dom (rs !!! roomName) ∖ {[conn]}
    else dom (rs !!! r).
Proof.
  unfold departed.
  destruct (decide (r = roomName)) as [->|Hr];
    destruct (decide (size (delete conn (rs !!! roomName)) = 0)) as [Hsz|Hsz].
  - rewrite lookup_total_delete_eq. apply map_size_empty_iff in Hsz.
    by rewrite <- dom_delete_L, Hsz.
  - rewrite lookup_total_alter_eq, lookup_total_alt.
    destruct (rs !! roomName) as [m|]; simpl; [by rewrite dom_delete_L|].
    change (dom (∅ : gmap Conn bool) = dom (∅ : gmap Conn bool) ∖ {[conn]}).
    by rewrite dom_empty_L, empty_difference_L.
  - by rewrite lookup_total_delete_ne.
  - by rewrite lookup_total_alter_ne.
Qed.

(** Once a handle has left, it stays out of the room whatever the other
    sessions do, as long as none of them joins that very handle again. *)
Lemma departed_stays_out roomName (conn : Conn) ops w :
  unlocked w → conn ∉ snapshotMembers w roomName →
  OpJoin roomName conn ∉ ops →
  ∃ w', run_ops ops w = (Done (), w') ∧ conn ∉ snapshotMembers w' roomName.
Proof.
  revert w. induction ops as [|op ops IH]; intros w Hu Hc Hops; simpl.
  - by exists w.
  - apply not_elem_of_cons in Hops as [Hop Hops].
    assert (∃ w1, run_op op w = (Done (), w1) ∧ unlocked w1 ∧
                  conn ∉ snapshotMembers w1 roomName) as (w1 & E1 & Hu1 & Hc1).
    { destruct op as [r c|r c]; simpl.
      - rewrite join_unlocked by done. eexists. split; [done|]. split; [done|].
        unfold snapshotMembers in *. simpl. rewrite dom_joined.
        case_decide; [|done]. subst. apply not_elem_of_union. split; [|done].
        apply not_elem_of_singleton. congruence.
      - rewrite leave_unlocked by done. eexists. split; [done|]. split; [done|].
        unfold snapshotMembers in *. simpl. rewrite dom_departed.
        case_decide; [|done]. subst. apply not_elem_of_difference. by left. }
    destruct (IH w1 Hu1 Hc1 Hops) as (w2 & E2 & Hc2).
    exists w2. go_unfold. by rewrite E1.
Qed.

(** ** The session, from join to cleanup *)

Lemma relay_loop_turns roomName conn turns rest w :
  Forall turn_returns turns → unlocked w →
  ∃ b evs,
    relay_loop roomName conn (turns ++ rest) w =
      relay_loop roomName conn rest {| bc := b; trace := trace w ++ evs |} ∧
    lock b = lock (bc w) ∧
    Forall (relay_event conn) evs.
Proof.
  intros Hall. revert w. induction Hall as [|t turns [(k & d & Hr) Hret] _ IH];
    intros w Hu.
  - exists (bc w), []. simpl. rewrite app_nil_r. by destruct w.
  - destruct (relay_turn_returns roomName conn t (turns ++ rest) k d w Hu Hr Hret)
      as (b & evs & _ & Hl & Hev & E & _).
    edestruct (IH {| bc := b; trace := trace w ++ EvReadMessage conn :: evs |})
      as (b' & evs' & E' & Hl' & Hev').
    { unfold unlocked in *. simpl. congruence. }
    exists b', (EvReadMessage conn :: evs ++ evs'). simpl in *.
    rewrite E, E'. split; [|split].
    + by rewrite <- app_assoc.
    + congruence.
    + constructor; [done|]. by apply Forall_app.
Qed.

(** The handler of an accepted connection: the upgrade, the join and the
    "connected" log line, then the relay loop under the two deferred calls. *)
Lemma handleWebSocket_accepted r (conn : Conn) script w :
  unlocked w → Get (query r) "room" ≠ "" →
  let roomName := Get (query r) "room" in
  let rs := joined roomName conn (rooms (bc w)) in
  handleWebSocket r (inl conn) script w =
    defer (emit (EvClose conn))
      (defer (leave roomName conn) (relay_loop roomName conn script))
      {| bc := {| lock := lock (bc w); rooms := rs |};
         trace := trace w ++
           [EvUpgrade;
            EvPrintf "Client connected to room: %s. Total clients: %d"
              [ArgS roomName; ArgD (member_count rs roomName)]] |}.
Proof.
  intros Hu Hne. simpl. unfold handleWebSocket. rewrite decide_False by done.
  unfold defer at 1 3. go_unfold. simpl.
  assert (unlocked {| bc := bc w; trace := trace w ++ [EvUpgrade] |}) as Hu' by done.
  rewrite (join_unlocked _ _ _ Hu'). simpl. by rewrite <- app_assoc.
Qed.

(** When the receive loop of an accepted connection ends in its
    [ReadMessage] call, by an error (the break) or by a panic, after any
    number of turns whose sends all returned, the handler ends too (returning,
    or with that panic): the leave has run once and to its end, then the
    connection was closed, the lock is free, and the handle is not a member
    of the room. *)
Theorem session_cleans_up_when_the_receive_ends
    (r : Request) (conn : Conn) (turns : list Turn) (last : Turn)
    (rest : list Turn) (w : World) :
  unlocked w → Get (query r) "room" ≠ "" →
  Forall turn_returns turns →
  (∀ messageType message, read last ≠ ReadOk messageType message) →
  let roomName := Get (query r) "room" in
  ∃ w' evs rs,
    handleWebSocket r (inl conn) (turns ++ last :: rest) w = (exit_of (read last), w') ∧
    trace w' = trace w ++ evs ++ leave_log roomName conn rs ++ [EvClose conn] ∧
    (disconnected roomName ∉ evs) ∧ (EvClose conn ∉ evs) ∧
    (∃ pre, leave_log roomName conn rs = pre ++ [disconnected roomName] ∧
            disconnected roomName ∉ pre) ∧
    unlocked w' ∧
    conn ∉ snapshotMembers w' roomName.
Proof.
  intros Hu Hne Hturns Hlast roomName.
  rewrite handleWebSocket_accepted by done. fold roomName.
  set (w1 := {| bc := _; trace := _ |}).
  assert (unlocked w1) as Hu1 by done.
  destruct (relay_loop_turns roomName conn turns (last :: rest) w1 Hturns Hu1)
    as (b & evs & E & Hl & Hev).
  set (w2 := {| bc := b; trace := trace w1 ++ evs |}) in *.
  assert (unlocked w2) as Hu2 by (unfold unlocked in *; simpl; congruence).
  destruct (relay_loop_stop roomName conn last rest w2 Hu2)
    as (b' & _ & Hl' & Herr & Hpanic).
  set (w3 := {| bc := b'; trace := trace w2 ++ [EvReadMessage conn] |}) in *.
  assert (unlocked w3) as Hu3 by (unfold unlocked in *; simpl; congruence).
  assert (relay_loop roomName conn (turns ++ last :: rest) w1
          = (exit_of (read last), w3)) as Eloop.
  { rewrite E. destruct (read last) as [k d|err|v] eqn:Hr.
    - by destruct (Hlast k d).
    - by apply (Herr err).
    - by apply (Hpanic v). }
  pose proof (leave_unlocked roomName conn w3 Hu3) as Eleave.
  eexists _, ([EvUpgrade;
               EvPrintf "Client connected to room: %s. Total clients: %d"
                 [ArgS roomName;
                  ArgD (member_count (joined roomName conn (rooms (bc w))) roomName)]]
              ++ evs ++ [EvReadMessage conn]), (rooms b').
  split; [|split; [|split; [|split; [|split; [|split]]]]].
  - unfold defer. rewrite Eloop.
    destruct (read last) as [k d|err|v] eqn:Hr; cbn [exit_of];
      [by destruct (Hlast k d)|..]; rewrite Eleave; unfold emit; reflexivity.
  - cbn [trace w1 w2 w3]. by rewrite <- !app_assoc.
  - rewrite !elem_of_app, !elem_of_cons, elem_of_nil.
    intros [[[=]|[[=]|[]]]|[Hin|[[=]|[]]]].
    by apply (proj1 (Forall_forall _ _) Hev) in Hin.
  - rewrite !elem_of_app, !elem_of_cons, elem_of_nil.
    intros [[[=]|[[=]|[]]]|[Hin|[[=]|[]]]].
    by apply (proj1 (Forall_forall _ _) Hev) in Hin.
  - unfold leave_log. eexists. split; [reflexivity|]. case_decide.
    + by intros [[=]|[]%elem_of_nil]%elem_of_cons.
    + by intros []%elem_of_nil.
  - done.
  - unfold snapshotMembers. simpl. rewrite dom_departed, decide_True by done.
    apply not_elem_of_difference. right. by apply elem_of_singleton.
Qed.

(** ** A panic inside the fan-out *)

(** C4 fails on the code.  Connection 1 joins the lobby, where connection 2
    is; it receives "hi" and the send to 2 panics.  The panic leaves the loop
    between [RLock] (main.go:97) and [RUnlock] (main.go:113), so the deferred
    function of main.go:71 asks for the write lock while its own goroutine
    still holds the read lock, and waits: the handler never ends, the leave
    is not performed (no "Client disconnected" line), the connection is not
    closed, and connection 1 is still a member of the lobby. *)
Lemma a_panic_in_a_send_blocks_the_cleanup :
  let r := handleWebSocket ws_room_lobby (inl 1%positive) [send_panics] lobby_of_2 in
  r.1 = Blocked InLock ∧
  trace r.2 =
    [EvUpgrade;
     EvPrintf "Client connected to room: %s. Total clients: %d"
       [ArgS "lobby"; ArgD 2];
     EvReadMessage 1;
     EvWriteMessage 2 TextMessage hi] ∧
  (rooms (bc r.2) !!! "lobby") !! 1%positive = Some true ∧
  lock (bc r.2) = {| readers := 1; writer := false |}.
Proof. vm_compute. repeat split; reflexivity. Qed.

Lemma leave_read_locked roomName conn w :
  readers (lock (bc w)) ≠ 0 →
  leave roomName conn w = (Blocked InLock, w).
Proof.
  intros Hr. unfold leave, Lock. go_unfold.
  rewrite decide_False; [done|]. by intros [? _].
Qed.

(** The same in general: whenever the first message of an accepted session
    finds a peer in the room and the sends panic, the handler ends waiting in
    [Lock], the connection is neither removed from the room nor closed. *)
Lemma a_panic_in_a_send_blocks_the_cleanup_always
    (r : Request) (conn p : Conn) (t : Turn) (rest : list Turn) (w : World)
    (messageType : Z) (message : list Byte.byte) (v : string) :
  unlocked w → Get (query r) "room" ≠ "" →
  p ∈ snapshotMembers w (Get (query r) "room") → p ≠ conn →
  others t = [] → read t = ReadOk messageType message →
  (∀ q, write t q = WritePanic v) →
  ∃ w' evs,
    handleWebSocket r (inl conn) (t :: rest) w = (Blocked InLock, w') ∧
    trace w' = trace w ++ evs ∧
    (EvClose conn ∉ evs) ∧
    (disconnected (Get (query r) "room") ∉ evs) ∧
    conn ∈ snapshotMembers w' (Get (query r) "room") ∧
    read_locked w'.
Proof.
  intros Hu Hne Hp Hpc Ho Hr Hw.
  rewrite handleWebSocket_accepted by done.
  set (roomName := Get (query r) "room") in *.
  set (w1 := {| bc := _; trace := _ |}).
  assert (unlocked w1) as Hu1 by done.
  destruct (relay_loop_message roomName conn t rest _ _ w1 Hu1 Hr)
    as (b & Eb & _ & E).
  rewrite Ho in Eb. injection Eb as <-.
  set (w2 := {| bc := bc w1; trace := trace w1 ++ [EvReadMessage conn] |}) in *.
  assert (writer (lock (bc w2)) = false) as Hw2 by (simpl; by rewrite Hu).
  set (peers := peers_of conn (range (seed t) (rooms (bc w2) !!! roomName))).
  assert (p ∈ peers) as Hin.
  { apply elem_of_peers_of. split; [|done]. apply elem_of_range.
    simpl. rewrite dom_joined, decide_True by done.
    apply elem_of_union. by right. }
  assert (∃ q, relay_loop roomName conn (t :: rest) w1 =
               (Panicking v,
                {| bc := rlocked w2;
                   trace := trace w2 ++ [EvWriteMessage q messageType message] |}))
    as [q E'].
  { rewrite E.
    rewrite (go_bind_run _ _ _ _ _ (fanout_run roomName conn messageType message
                                      (seed t) (write t) w2 Hw2)).
    fold peers. destruct peers as [|q peers]; [by apply elem_of_nil in Hin|].
    exists q. simpl. by rewrite Hw. }
  eexists _, ([EvUpgrade;
               EvPrintf "Client connected to room: %s. Total clients: %d"
                 [ArgS roomName;
                  ArgD (member_count (joined roomName conn (rooms (bc w))) roomName)]]
              ++ [EvReadMessage conn; EvWriteMessage q messageType message]).
  split; [|split; [|split; [|split; [|split]]]].
  - unfold defer. rewrite E'. rewrite leave_read_locked by done. reflexivity.
  - cbn [trace w1 w2]. by rewrite <- !app_assoc.
  - rewrite !elem_of_app, !elem_of_cons, elem_of_nil.
    by intros [[[=]|[[=]|[]]]|[[=]|[[=]|[]]]].
  - rewrite !elem_of_app, !elem_of_cons, elem_of_nil.
    by intros [[[=]|[[=]|[]]]|[[=]|[[=]|[]]]].
  - unfold snapshotMembers. simpl. rewrite dom_joined, decide_True by done.
    apply elem_of_union. left. by apply elem_of_singleton.
  - unfold read_locked, rlocked. simpl. by rewrite Hu.
Qed.

(** * More of the registry *)

Lemma run_ops_app ops1 ops2 w :
  run_ops (ops1 ++ ops2) w = (run_ops ops1;; run_ops ops2) w.
Proof.
  revert w. induction ops1 as [|op ops1 IH]; intros w; simpl; [done|].
  go_unfold. by destruct (run_op op w) as [[[]|v|p|msg] w1].
Qed.

Lemma run_ops_membership ops w :
  unlocked w →
  ∃ w', run_ops ops w = (Done (), w') ∧ unlocked w' ∧
    ∀ r c, c ∈ snapshotMembers w' r ↔
           member_after r c ops (bool_decide (c ∈ snapshotMembers w r)) = true.
Proof.
  revert w. induction ops as [|op ops IH]; intros w Hu.
  - exists w. split; [done|]. split; [done|]. intros r c. simpl.
    by rewrite bool_decide_eq_true.
  - assert (∃ w1, run_op op w = (Done (), w1) ∧ unlocked w1 ∧
              ∀ r c, member_after r c (op :: ops) (bool_decide (c ∈ snapshotMembers w r))
                   = member_after r c ops (bool_decide (c ∈ snapshotMembers w1 r)))
      as (w1 & E1 & Hu1 & Hm).
    { destruct op as [r0 c0|r0 c0]; simpl.
      - rewrite join_unlocked by done. eexists. split; [done|]. split; [done|].
        intros r c. f_equal. unfold snapshotMembers. simpl. rewrite dom_joined.
        destruct (decide (r0 = r ∧ c0 = c)) as [[-> ->]|Hne].
        + rewrite decide_True by done. symmetry. apply bool_decide_eq_true.
          apply elem_of_union. left. by apply elem_of_singleton.
        + destruct (decide (r = r0)) as [->|?]; [|done].
          apply bool_decide_ext. rewrite elem_of_union, elem_of_singleton.
          split; [auto|]. intros [->|?]; [|done]. by destruct Hne.
      - rewrite leave_unlocked by done. eexists. split; [done|]. split; [done|].
        intros r c. f_equal. unfold snapshotMembers. simpl. rewrite dom_departed.
        destruct (decide (r0 = r ∧ c0 = c)) as [[-> ->]|Hne].
        + rewrite decide_True by done. symmetry. apply bool_decide_eq_false.
          rewrite elem_of_difference, elem_of_singleton. by intros [_ []].
        + destruct (decide (r = r0)) as [->|?]; [|done].
          apply bool_decide_ext. rewrite elem_of_difference, elem_of_singleton.
          split; [|by intros [? _]]. intros Hc. split; [done|].
          intros ->. by destruct Hne. }
    destruct (IH w1 Hu1) as (w2 & E2 & Hu2 & Hm2).
    exists w2. split; [|split; [done|]].
    + simpl. go_unfold. by rewrite E1.
    + intros r c. by rewrite Hm, Hm2.
Qed.

(** After any sequence of joins and leaves, each run to its end, a handle is
    a member of a room exactly when the last operation of the sequence on
    that room and that handle is a join, or when there is none and it was a
    member before: no join or leave is lost, and operations on other rooms or
    other handles do not count. *)
Theorem membership_is_decided_by_the_last_operation
    (ops : list RegistryOp) (w : World) :
  unlocked w →
  ∃ w', run_ops ops w = (Done (), w') ∧
    ∀ roomName conn,
      conn ∈ snapshotMembers w' roomName ↔
      member_after roomName conn ops
        (bool_decide (conn ∈ snapshotMembers w roomName)) = true.
Proof.
  intros Hu. destruct (run_ops_membership ops w Hu) as (w' & E & _ & H).
  by exists w'.
Qed.

Lemma departed_joined roomName (conn : Conn) (rs : Rooms) :
  no_empty_room rs → conn ∉ dom (rs !!! roomName) →
  departed roomName conn (joined roomName conn rs) = rs.
Proof.
  intros Hinv Hc. unfold departed, joined.
  rewrite lookup_total_insert_eq.
  assert ((rs !!! roomName) !! conn = None) as Hnone by (by apply not_elem_of_dom).
  rewrite delete_insert_eq, (delete_id _ _ Hnone).
  rewrite lookup_total_alt. destruct (rs !! roomName) as [m|] eqn:Hm; simpl.
  - rewrite decide_False.
    + apply map_eq. intros r. destruct (decide (r = roomName)) as [->|Hne].
      * rewrite lookup_alter_eq, lookup_insert_eq. simpl. rewrite Hm. f_equal.
        rewrite delete_insert_eq. apply delete_id.
        by rewrite lookup_total_alt, Hm in Hnone.
      * by rewrite lookup_alter_ne, lookup_insert_ne.
    + intros Hsz%map_size_empty_iff. by destruct (Hinv _ _ Hm).
  - rewrite decide_True by apply map_size_empty.
    by rewrite delete_insert_eq, delete_id.
Qed.

(** A join followed by the leave of the same handle gives back the registry
    it started from, whether the join created the room or not, provided the
    handle was not a member already (and the registry keeps no empty room). *)
Theorem join_then_leave_restores_the_registry
    (roomName : string) (conn : Conn) (w : World) :
  unlocked w → no_empty_room (rooms (bc w)) →
  conn ∉ snapshotMembers w roomName →
  ∃ w', (join roomName conn;; leave roomName conn) w = (Done (), w') ∧
        bc w' = bc w.
Proof.
  intros Hu Hinv Hc. eexists. split.
  - rewrite (go_bind_run _ _ _ _ _ (join_unlocked roomName conn w Hu)).
    by rewrite leave_unlocked.
  - simpl. rewrite departed_joined by done. by destruct w as [[??]?].
Qed.

Lemma departed_idemp roomName (conn : Conn) (rs : Rooms) :
  departed roomName conn (departed roomName conn rs) = departed roomName conn rs.
Proof.
  unfold departed at 2 3.
  destruct (decide (size (delete conn (rs !!! roomName)) = 0)) as [Hsz|Hsz].
  - unfold departed. rewrite lookup_total_delete_eq.
    rewrite decide_True; [apply delete_delete_eq|].
    change (size (delete conn (∅ : gmap Conn bool)) = 0).
    by rewrite delete_empty, map_size_empty.
  - unfold departed.
    assert (alter (delete conn) roomName rs !!! roomName
            = delete conn (rs !!! roomName)) as Hl.
    { rewrite !lookup_total_alt, lookup_alter_eq.
      destruct (rs !! roomName); simpl; [done|]. by rewrite delete_empty. }
    rewrite Hl, delete_delete_eq, decide_False by done.
    apply map_eq. intros r. destruct (decide (r = roomName)) as [->|Hne].
    + rewrite !lookup_alter_eq. destruct (rs !! roomName); simpl; [|done].
      by rewrite delete_delete_eq.
    + by rewrite !lookup_alter_ne.
Qed.

Lemma membership_is_decided_by_the_last_operation_witness :
  ∃ w', run_ops [OpJoin "lobby" 1; OpLeave "lobby" 1; OpJoin "lobby" 2] start
          = (Done (), w') ∧
    ∀ roomName conn,
      conn ∈ snapshotMembers w' roomName ↔
      member_after roomName conn
        [OpJoin "lobby" 1; OpLeave "lobby" 1; OpJoin "lobby" 2]
        (bool_decide (conn ∈ snapshotMembers start roomName)) = true.
Proof.
  apply (membership_is_decided_by_the_last_operation
           [OpJoin "lobby" 1; OpLeave "lobby" 1; OpJoin "lobby" 2] start).
  reflexivity.
Defined.

Lemma join_then_leave_restores_the_registry_witness :
  ∃ w', (join "lobby" 1;; leave "lobby" 1) lobby_of_2 = (Done (), w') ∧
        bc w' = bc lobby_of_2.
Proof.
  apply (join_then_leave_restores_the_registry "lobby" 1 lobby_of_2).
  - reflexivity.
  - simpl. intros r m [<- <-]%lookup_singleton_Some. apply insert_non_empty.
  - unfold snapshotMembers. simpl.
    rewrite lookup_total_singleton_eq, dom_singleton_L.
    apply not_elem_of_singleton. discriminate.
Defined.

(** A second leave of the same handle from the same room returns too and
    changes nothing: neither the mapping nor the lock. *)
Theorem leave_twice_is_leave_once
    (roomName : string) (conn : Conn) (w : World) :
  unlocked w →
  ∃ w1 w2, leave roomName conn w = (Done (), w1) ∧
           leave roomName conn w1 = (Done (), w2) ∧
           bc w2 = bc w1.
Proof.
  intros Hu. rewrite leave_unlocked by done. eexists _, _. split; [done|].
  rewrite leave_unlocked by done. split; [done|].
  simpl. by rewrite departed_idemp.
Qed.

Lemma leave_twice_is_leave_once_witness :
  ∃ w1 w2, leave "lobby" 2 lobby = (Done (), w1) ∧
           leave "lobby" 2 w1 = (Done (), w2) ∧
           bc w2 = bc w1.
Proof. apply (leave_twice_is_leave_once "lobby" 2 lobby). reflexivity. Defined.

(** A leave removes the handle from the room and touches nothing else: the
    other members of the room and all the other rooms are as before, and the
    lock is free again.  It logs that the room "is now empty and has been
    deleted" exactly when no other member is left, which includes the case
    of a room that was not in the mapping at all. *)
Theorem leave_removes_exactly_the_handle
    (roomName : string) (conn : Conn) (w : World) :
  unlocked w →
  ∃ w' evs,
    leave roomName conn w = (Done (), w') ∧
    trace w' = trace w ++ evs ∧
    unlocked w' ∧
    snapshotMembers w' roomName = snapshotMembers w roomName ∖ {[conn]} ∧
    (∀ c, c ≠ conn →
       (rooms (bc w') !!! roomName) !! c = (rooms (bc w) !!! roomName) !! c) ∧
    (∀ r, r ≠ roomName → rooms (bc w') !! r = rooms (bc w) !! r) ∧
    (EvPrintf "Room %s is now empty and has been deleted." [ArgS roomName] ∈ evs
       ↔ snapshotMembers w roomName ⊆ {[conn]}).
Proof.
  intros Hu. rewrite leave_unlocked by done. eexists _, _.
  split; [done|]. split; [done|]. split; [done|].
  unfold snapshotMembers. simpl. rewrite dom_departed, decide_True by done.
  split; [done|].
  assert (size (delete conn (rooms (bc w) !!! roomName)) = 0
          ↔ dom (rooms (bc w) !!! roomName) ⊆ {[conn]}) as Hsz.
  { rewrite map_size_empty_iff, <- dom_empty_iff_L, dom_delete_L. split.
    - apply empty_difference_subseteq_L.
    - apply subseteq_empty_difference_L. }
  split; [|split].
  - intros c Hc. unfold departed. case_decide as Hd.
    + rewrite lookup_total_delete_eq. apply map_size_empty_iff in Hd.
      change ((∅ : gmap Conn bool) !! c = (rooms (bc w) !!! roomName) !! c).
      rewrite lookup_empty. symmetry.
      by rewrite <- (lookup_delete_ne _ conn c), Hd, lookup_empty.
    + rewrite !lookup_total_alt, lookup_alter_eq.
      destruct (rooms (bc w) !! roomName); simpl; [|done].
      by rewrite lookup_delete_ne.
  - intros r Hr. unfold departed. case_decide.
    + by rewrite lookup_delete_ne.
    + by rewrite lookup_alter_ne.
  - rewrite <- Hsz. unfold leave_log. case_decide as Hd.
    + split; [done|]. intros _. apply elem_of_app. left. by apply list_elem_of_singleton.
    + split; [|done]. by intros [[]%elem_of_nil|[=]%list_elem_of_singleton]%elem_of_app.
Qed.

Lemma leave_removes_exactly_the_handle_witness :
  ∃ w' evs,
    leave "lobby" 2 lobby = (Done (), w') ∧
    trace w' = trace lobby ++ evs ∧
    unlocked w' ∧
    snapshotMembers w' "lobby" = snapshotMembers lobby "lobby" ∖ {[2%positive]} ∧
    (∀ c, c ≠ 2%positive →
       (rooms (bc w') !!! "lobby") !! c = (rooms (bc lobby) !!! "lobby") !! c) ∧
    (∀ r, r ≠ "lobby" → rooms (bc w') !! r = rooms (bc lobby) !! r) ∧
    (EvPrintf "Room %s is now empty and has been deleted." [ArgS "lobby"] ∈ evs
       ↔ snapshotMembers lobby "lobby" ⊆ {[2%positive]}).
Proof. apply (leave_removes_exactly_the_handle "lobby" 2 lobby). reflexivity. Defined.

(** * More of the session *)

Lemma run_ops_unlocked_eq ops w :
  unlocked w →
  ∃ evs, run_ops ops w =
    (Done (), {| bc := {| lock := lock (bc w);
                          rooms := apply_ops ops (rooms (bc w)) |};
                 trace := trace w ++ evs |}).
Proof.
  revert w. induction ops as [|[r c|r c] ops IH]; intros w Hu; simpl.
  - exists []. rewrite app_nil_r. by destruct w as [[??]?].
  - rewrite (go_bind_run _ _ _ _ _ (join_unlocked r c w Hu)).
    edestruct IH as [evs ->]; [|by exists evs]. done.
  - rewrite (go_bind_run _ _ _ _ _ (leave_unlocked r c w Hu)).
    edestruct IH as [evs ->]; [done|]. simpl. eexists. by rewrite <- app_assoc.
Qed.

Lemma quietly_run_ops_eq ops w :
  unlocked w →
  quietly (run_ops ops) w =
    (Done (), {| bc := {| lock := lock (bc w);
                          rooms := apply_ops ops (rooms (bc w)) |};
                 trace := trace w |}).
Proof.
  intros Hu. unfold quietly.
  by destruct (run_ops_unlocked_eq ops w Hu) as [evs ->].
Qed.

Lemma apply_ops_app ops1 ops2 rs :
  apply_ops (ops1 ++ ops2) rs = apply_ops ops2 (apply_ops ops1 rs).
Proof.
  revert rs. induction ops1 as [|[r c|r c] ops1 IH]; intros rs; simpl; auto.
Qed.

Lemma apply_ops_no_empty ops rs :
  no_empty_room rs → no_empty_room (apply_ops ops rs).
Proof.
  revert rs. induction ops as [|[r c|r c] ops IH]; intros rs Hinv; simpl; [done|..].
  - by apply IH, joined_no_empty.
  - by apply IH, departed_no_empty.
Qed.


(** One turn of the relay loop, from a free lock. *)
Lemma relay_loop_step roomName conn t script w :
  unlocked w →
  let b := {| lock := lock (bc w);
              rooms := apply_ops (others t) (rooms (bc w)) |} in
  let w2 := {| bc := b; trace := trace w ++ [EvReadMessage conn] |} in
  relay_loop roomName conn (t :: script) w =
    match read t with
    | ReadOk messageType message =>
        let peers := peers_of conn (range (seed t) (rooms b !!! roomName)) in
        let evs := fanout_events messageType message (write t) peers in
        match fanout_outcome (write t) peers with
        | Done _ =>
            relay_loop roomName conn script
              {| bc := b; trace := trace w2 ++ evs |}
        | o => (o, {| bc := rlocked w2; trace := trace w2 ++ evs |})
        end
    | ReadErr _ => (Done (), w2)
    | ReadPanic v => (Panicking v, w2)
    end.
Proof.
  intros Hu b w2.
  change (relay_loop roomName conn (t :: script) w) with
    ((quietly (run_ops (others t));;
      r ← ReadMessage conn (read t);
      match r with
      | inr _ => mret ()
      | inl (messageType, message) =>
          fanout roomName conn messageType message (seed t) (write t);;
          relay_loop roomName conn script
      end) w).
  rewrite (go_bind_run _ _ _ _ _ (quietly_run_ops_eq (others t) w Hu)).
  fold b. unfold ReadMessage.
  destruct (read t) as [k d|err|v]; try done.
  change ((fanout roomName conn k d (seed t) (write t);;
           relay_loop roomName conn script) w2 = 
          let peers := peers_of conn (range (seed t) (rooms b !!! roomName)) in
          let evs := fanout_events k d (write t) peers in
          match fanout_outcome (write t) peers with
          | Done _ =>
              relay_loop roomName conn script
                {| bc := b; trace := trace w2 ++ evs |}
          | o => (o, {| bc := rlocked w2; trace := trace w2 ++ evs |})
          end).
  assert (writer (lock (bc w2)) = false) as Hw2 by (simpl; by rewrite Hu).
  rewrite (go_bind_run _ _ _ _ _ (fanout_run roomName conn k d
                                    (seed t) (write t) w2 Hw2)).
  simpl. by destruct (fanout_outcome (write t) _) as [[]| | |].
Qed.

Lemma turns_events_app roomName conn turns1 turns2 rs :
  turns_events roomName conn (turns1 ++ turns2) rs =
    turns_events roomName conn turns1 rs ++
    turns_events roomName conn turns2 (apply_ops (others_of turns1) rs).
Proof.
  revert rs. induction turns1 as [|t turns1 IH]; intros rs; simpl; [done|].
  rewrite IH. unfold others_of. simpl. rewrite apply_ops_app.
  by rewrite <- !app_assoc.
Qed.

Lemma others_of_snoc turns t : others_of (turns ++ [t]) = others_of turns ++ others t.
Proof.
  unfold others_of. rewrite fmap_app, concat_app. simpl. by rewrite app_nil_r.
Qed.

(** Turns whose sends all return, one after the other. *)
Lemma relay_loop_turns_exact roomName conn turns rest w :
  Forall turn_returns turns → unlocked w →
  relay_loop roomName conn (turns ++ rest) w =
    relay_loop roomName conn rest
      {| bc := {| lock := lock (bc w);
                  rooms := apply_ops (others_of turns) (rooms (bc w)) |};
         trace := trace w ++ turns_events roomName conn turns (rooms (bc w)) |}.
Proof.
  intros Hall. revert w.
  induction Hall as [|t turns [(k & d & Hr) Hret] _ IH]; intros w Hu.
  - simpl. rewrite app_nil_r. by destruct w as [[??]?].
  - change ((t :: turns) ++ rest) with (t :: (turns ++ rest)).
    rewrite relay_loop_step by done. rewrite Hr. cbn zeta.
    rewrite fanout_outcome_all by (apply Forall_forall; auto).
    rewrite IH by done. cbn [bc rooms lock trace].
    unfold others_of. cbn [fmap list_fmap concat]. rewrite apply_ops_app.
    cbn [turns_events]. rewrite Hr. by rewrite <- !app_assoc.
Qed.

(** The same, up to a read that brings no message and ends the loop. *)
Lemma relay_loop_receive_end roomName conn turns last rest w :
  Forall turn_returns turns → unlocked w →
  (∀ messageType message, read last ≠ ReadOk messageType message) →
  relay_loop roomName conn (turns ++ last :: rest) w =
    (exit_of (read last),
     {| bc := {| lock := lock (bc w);
                 rooms := apply_ops (others_of (turns ++ [last])) (rooms (bc w)) |};
        trace := trace w ++
          turns_events roomName conn (turns ++ [last]) (rooms (bc w)) |}).
Proof.
  intros Hall Hu Hlast. rewrite relay_loop_turns_exact by done.
  rewrite relay_loop_step by done. cbn [bc rooms lock trace].
  rewrite turns_events_app, others_of_snoc, apply_ops_app.
  cbn [turns_events].
  destruct (read last) as [k d|err|v]; [by destruct (Hlast k d)|..];
    cbn [exit_of]; rewrite !app_nil_r; by rewrite <- !app_assoc.
Qed.

(** Where the registry stands however the loop ends: at the result of the
    other sessions' operations of the turns gone through. *)
Lemma relay_loop_rooms roomName conn script w :
  unlocked w →
  ∃ n, rooms (bc (relay_loop roomName conn script w).2) =
       apply_ops (others_of (take n script)) (rooms (bc w)).
Proof.
  revert w. induction script as [|t script IH]; intros w Hu.
  { by exists 0. }
  rewrite relay_loop_step by done.
  assert (apply_ops (others t) (rooms (bc w)) =
          apply_ops (others_of (take 1 (t :: script))) (rooms (bc w))) as H1.
  { unfold others_of. simpl. by rewrite app_nil_r. }
  destruct (read t) as [k d|err|v]; [|by exists 1..].
  cbn zeta. destruct (fanout_outcome (write t) _) as [[]|v|p|msg];
    [|by exists 1..].
  match goal with
  | |- context [relay_loop roomName conn script ?w3] =>
      destruct (IH w3) as [n Hn]; [done|]
  end.
  exists (S n). rewrite Hn. simpl. unfold others_of. simpl.
  by rewrite apply_ops_app.
Qed.

(** The whole run of a session that ends in its [ReadMessage]. *)
Lemma handler_receive_end_run r conn turns last rest w :
  unlocked w → Get (query r) "room" ≠ "" →
  Forall turn_returns turns →
  (∀ messageType message, read last ≠ ReadOk messageType message) →
  let roomName := Get (query r) "room" in
  let rs := apply_ops (others_of (turns ++ [last]))
              (joined roomName conn (rooms (bc w))) in
  handleWebSocket r (inl conn) (turns ++ last :: rest) w =
    (exit_of (read last),
     {| bc := {| lock := lock (bc w); rooms := departed roomName conn rs |};
        trace := trace w ++ accepted_prefix roomName conn (rooms (bc w)) ++
          turns_events roomName conn (turns ++ [last])
            (joined roomName conn (rooms (bc w))) ++
          leave_log roomName conn rs ++ [EvClose conn] |}).
Proof.
  intros Hu Hne Hturns Hlast roomName rs.
  rewrite handleWebSocket_accepted by done. fold roomName.
  unfold defer. rewrite relay_loop_receive_end by done.
  cbn [bc rooms lock trace]. fold rs.
  set (w3 := {| bc := {| lock := lock (bc w); rooms := rs |}; trace := _ |}).
  assert (unlocked w3) as Hu3 by done.
  rewrite (leave_unlocked roomName conn w3 Hu3). unfold emit, accepted_prefix.
  subst w3.
  destruct (read last) as [k d|err|v]; [by destruct (Hlast k d)|..];
    cbn [exit_of bc rooms lock trace]; by rewrite <- !app_assoc.
Qed.

(** A session that ends in its [ReadMessage] (error or panic), after turns
    whose sends all returned, acts on the broadcaster exactly as the sequence
    made of its join, the joins and leaves of the other sessions in the order
    they took place, and its leave: the reads and the fan-outs in between add
    nothing and remove nothing. *)
Theorem session_acts_as_its_join_and_its_leave
    (r : Request) (conn : Conn) (turns : list Turn) (last : Turn)
    (rest : list Turn) (w : World) :
  unlocked w → Get (query r) "room" ≠ "" →
  Forall turn_returns turns →
  (∀ messageType message, read last ≠ ReadOk messageType message) →
  let roomName := Get (query r) "room" in
  ∃ w', handleWebSocket r (inl conn) (turns ++ last :: rest) w
          = (exit_of (read last), w') ∧
        bc w' = bc (run_ops (OpJoin roomName conn ::
                              others_of (turns ++ [last]) ++
                              [OpLeave roomName conn]) w).2.
Proof.
  intros Hu Hne Hturns Hlast roomName.
  rewrite handler_receive_end_run by done. eexists. split; [done|].
  destruct (run_ops_unlocked_eq
              (OpJoin roomName conn :: others_of (turns ++ [last]) ++
               [OpLeave roomName conn]) w Hu) as [evs ->].
  cbn [snd bc]. f_equal. cbn [apply_ops]. by rewrite apply_ops_app.
Qed.

(** A session that no other session's join or leave interleaves with leaves
    the broadcaster exactly as it found it, however many messages it relayed
    and whether their sends succeeded or failed, provided its handle was not
    already in the room (and no room was empty). *)
Theorem undisturbed_session_restores_the_registry
    (r : Request) (conn : Conn) (turns : list Turn) (last : Turn)
    (rest : list Turn) (w : World) :
  unlocked w → no_empty_room (rooms (bc w)) →
  Get (query r) "room" ≠ "" →
  conn ∉ snapshotMembers w (Get (query r) "room") →
  Forall turn_returns turns →
  (∀ messageType message, read last ≠ ReadOk messageType message) →
  others_of (turns ++ [last]) = [] →
  ∃ w', handleWebSocket r (inl conn) (turns ++ last :: rest) w
          = (exit_of (read last), w') ∧
        bc w' = bc w.
Proof.
  intros Hu Hinv Hne Hc Hturns Hlast Hquiet.
  rewrite handler_receive_end_run by done. eexists. split; [done|].
  rewrite Hquiet. cbn [bc apply_ops]. rewrite departed_joined by done.
  by destruct w as [[??]?].
Qed.

(** * Delivery *)







(** * Every run of the handler *)

(** The run of the handler of an accepted connection, whatever its script:
    how it ends, what it has called, and where it leaves the broadcaster. *)
Lemma handleWebSocket_run r conn script w :
  unlocked w → Get (query r) "room" ≠ "" →
  let roomName := Get (query r) "room" in
  ∃ o w' evs tail n,
    handleWebSocket r (inl conn) script w = (o, w') ∧
    trace w' = trace w ++ accepted_prefix roomName conn (rooms (bc w)) ++
                 EvReadMessage conn :: evs ++ tail ∧
    Forall (relay_event conn) evs ∧
    let rs := apply_ops (others_of (take n script))
                (joined roomName conn (rooms (bc w))) in
    match o with
    | Done _ | Panicking _ =>
        unlocked w' ∧ rooms (bc w') = departed roomName conn rs ∧
        tail = leave_log roomName conn rs ++ [EvClose conn]
    | Blocked (InReadMessage c) =>
        c = conn ∧ unlocked w' ∧ rooms (bc w') = rs ∧ tail = []
    | Blocked (InWriteMessage _) | Blocked InLock =>
        read_locked w' ∧ rooms (bc w') = rs ∧ tail = []
    | Blocked InRLock | Fatal _ => False
    end.
Proof.
  intros Hu Hne roomName.
  rewrite handleWebSocket_accepted by done. fold roomName.
  set (w1 := {| bc := _; trace := _ |}).
  assert (unlocked w1) as Hu1 by done.
  destruct (relay_loop_inv roomName conn script w1 Hu1)
    as (o & w3 & evs & E & Ht & Hev & Hend).
  destruct (relay_loop_rooms roomName conn script w1 Hu1) as [n Hn].
  rewrite E in Hn. cbn [snd bc rooms w1] in Hn.
  assert (trace w3 = trace w ++ accepted_prefix roomName conn (rooms (bc w)) ++
                       EvReadMessage conn :: evs ++ []) as Ht3.
  { rewrite Ht, app_nil_r. cbn [trace w1]. unfold accepted_prefix.
    by rewrite <- !app_assoc. }
  assert ((trace w3 ++ leave_log roomName conn (rooms (bc w3))) ++ [EvClose conn] =
          trace w ++ accepted_prefix roomName conn (rooms (bc w)) ++
            EvReadMessage conn :: evs ++
            leave_log roomName conn (rooms (bc w3)) ++ [EvClose conn]) as Htail.
  { rewrite Ht3, app_nil_r. rewrite <- !app_assoc. by rewrite <- app_comm_cons. }
  unfold defer. rewrite E.
  destruct o as [[]|v|[c|p| |]|msg]; try done.
  - rewrite (leave_unlocked roomName conn w3 Hend). unfold emit.
    eexists _, _, evs, _, n. split; [done|]. cbn [bc trace rooms].
    split; [exact Htail|].
    split; [done|]. cbn zeta. rewrite <- Hn. done.
  - destruct Hend as [Hend|Hend].
    + rewrite (leave_unlocked roomName conn w3 Hend). unfold emit.
      eexists _, _, evs, _, n. split; [done|]. cbn [bc trace rooms].
      split; [exact Htail|].
      split; [done|]. cbn zeta. rewrite <- Hn. done.
    + rewrite leave_read_locked by (by rewrite Hend).
      eexists _, _, evs, [], n. split; [done|]. split; [done|].
      split; [done|]. cbn zeta. by rewrite <- Hn.
  - destruct Hend as [-> Hend].
    eexists _, _, evs, [], n. split; [done|]. split; [done|].
    split; [done|]. cbn zeta. by rewrite <- Hn.
  - eexists _, _, evs, [], n. split; [done|]. split; [done|].
    split; [done|]. cbn zeta. by rewrite <- Hn.
Qed.

Lemma handleWebSocket_upgrade_failed r err script w :
  Get (query r) "room" ≠ "" →
  handleWebSocket r (inr err) script w =
    (Done (), {| bc := bc w;
                 trace := trace w ++
                   [EvUpgrade;
                    EvPrintf "Error upgrading connection: %v" [ArgV err]] |}).
Proof.
  intros Hne. unfold handleWebSocket. rewrite decide_False by done.
  go_unfold. simpl. by rewrite <- app_assoc.
Qed.

(** A request with a room whose upgrade fails: the error is logged and the
    handler returns.  Nothing is joined, read, written or closed, whatever
    the connection would have received, and the broadcaster is unchanged. *)
Theorem failed_upgrade_joins_nothing
    (r : Request) (err : string) (script : list Turn) (w : World) :
  Get (query r) "room" ≠ "" →
  ∃ evs,
    handleWebSocket r (inr err) script w =
      (Done (), {| bc := bc w; trace := trace w ++ evs |}) ∧
    evs = [EvUpgrade; EvPrintf "Error upgrading connection: %v" [ArgV err]].
Proof.
  intros Hne. eexists. split; [by apply handleWebSocket_upgrade_failed|done].
Qed.

Lemma failed_upgrade_joins_nothing_witness :
  ∃ evs,
    handleWebSocket ws_room_lobby (inr "websocket: not a websocket handshake")
      [next_message] lobby =
      (Done (), {| bc := bc lobby; trace := trace lobby ++ evs |}) ∧
    evs = [EvUpgrade;
           EvPrintf "Error upgrading connection: %v"
             [ArgV "websocket: not a websocket handshake"]].
Proof.
  apply (failed_upgrade_joins_nothing ws_room_lobby
           "websocket: not a websocket handshake" [next_message] lobby).
  vm_compute. discriminate.
Defined.



(** Whatever the request, the upgrade and the connection do, and however the
    handler ends (also when it never ends), it leaves no room present with
    zero members if there was none. *)
Theorem handler_keeps_no_room_empty
    (r : Request) (upgraded : Conn + string) (script : list Turn) (w : World) :
  unlocked w → no_empty_room (rooms (bc w)) →
  no_empty_room (rooms (bc (handleWebSocket r upgraded script w).2)).
Proof.
  intros Hu Hinv. destruct (decide (Get (query r) "room" = "")) as [He|Hne].
  { unfold handleWebSocket. by rewrite decide_True by done. }
  destruct upgraded as [conn|err].
  - destruct (handleWebSocket_run r conn script w Hu Hne)
      as (o & w' & evs & tail & n & -> & _ & _ & H). cbn [snd]. cbn zeta in H.
    assert (no_empty_room
              (apply_ops (others_of (take n script))
                 (joined (Get (query r) "room") conn (rooms (bc w))))) as Hrs
      by (by apply apply_ops_no_empty, joined_no_empty).
    destruct o as [[]|v|[c|p| |]|msg]; try done.
    + destruct H as (_ & -> & _). by apply departed_no_empty.
    + destruct H as (_ & -> & _). by apply departed_no_empty.
    + by destruct H as (_ & _ & -> & _).
    + by destruct H as (_ & -> & _).
    + by destruct H as (_ & -> & _).
  - by rewrite handleWebSocket_upgrade_failed.
Qed.

Lemma handler_keeps_no_room_empty_witness :
  no_empty_room
    (rooms (bc (handleWebSocket ws_room_lobby (inl 1%positive)
                  [send_panics] lobby_of_2).2)).
Proof.
  apply (handler_keeps_no_room_empty ws_room_lobby (inl 1%positive)
           [send_panics] lobby_of_2).
  - reflexivity.
  - simpl. intros r m [<- <-]%lookup_singleton_Some. apply insert_non_empty.
Defined.

Lemma own_call_run roomName conn rs evs tail :
  Forall (relay_event conn) evs →
  tail = [] ∨ (∃ rs', tail = leave_log roomName conn rs' ++ [EvClose conn]) →
  Forall (own_call conn)
    (accepted_prefix roomName conn rs ++ EvReadMessage conn :: evs ++ tail).
Proof.
  intros Hev Htail. apply Forall_app. split; [by repeat constructor|].
  constructor; [done|]. apply Forall_app. split.
  - eapply Forall_impl; [exact Hev|]. by intros [].
  - destruct Htail as [->|[rs' ->]]; [done|].
    unfold leave_log. case_decide; by repeat constructor.
Qed.

(** Whenever the handler of an accepted connection comes back, by returning
    or with a panic, and whatever went on before, its last two calls are the
    log line of its leave and the close of its connection; neither occurs
    earlier; the lock is free and the handle is not a member of the room. *)
Theorem handler_that_comes_back_has_cleaned_up
    (r : Request) (conn : Conn) (script : list Turn) (w w' : World)
    (o : Outcome unit) :
  unlocked w → Get (query r) "room" ≠ "" →
  handleWebSocket r (inl conn) script w = (o, w') →
  (o = Done () ∨ ∃ v, o = Panicking v) →
  let roomName := Get (query r) "room" in
  ∃ evs,
    trace w' = trace w ++ evs ++ [disconnected roomName; EvClose conn] ∧
    (disconnected roomName ∉ evs) ∧ (EvClose conn ∉ evs) ∧
    unlocked w' ∧
    conn ∉ snapshotMembers w' roomName.
Proof.
  intros Hu Hne E Ho roomName.
  destruct (handleWebSocket_run r conn script w Hu Hne)
    as (o' & w'' & evs & tail & n & E' & Ht & Hev & H).
  fold roomName in Ht, H. rewrite E in E'. injection E' as <- <-.
  cbn zeta in H.
  set (rs := apply_ops (others_of (take n script))
               (joined roomName conn (rooms (bc w)))) in *.
  assert (unlocked w' ∧ rooms (bc w') = departed roomName conn rs ∧
          tail = leave_log roomName conn rs ++ [EvClose conn]) as (Hu' & Hrs & ->).
  { destruct Ho as [->|[v ->]]; exact H. }
  set (pre := if decide (size (delete conn (rs !!! roomName)) = 0)
              then [EvPrintf "Room %s is now empty and has been deleted."
                      [ArgS roomName]]
              else []).
  exists (accepted_prefix roomName conn (rooms (bc w)) ++
          EvReadMessage conn :: evs ++ pre).
  assert (∀ e, e ∈ accepted_prefix roomName conn (rooms (bc w)) ++
                   EvReadMessage conn :: evs ++ pre →
               e = EvUpgrade ∨ relay_event conn e ∨
               (∃ f a, e = EvPrintf f a ∧ f ≠ "Client disconnected from room: %s"))
    as Hin.
  { intros e. rewrite elem_of_app, elem_of_cons, elem_of_app.
    intros [He|[->|[He|He]]].
    - unfold accepted_prefix in He.
      apply elem_of_cons in He as [->|He]; [by left|].
      apply list_elem_of_singleton in He as ->. right. right. by eexists _, _.
    - right. by left.
    - right. left. by apply (proj1 (Forall_forall _ _) Hev).
    - right. right. unfold pre in He. case_decide; [|by apply elem_of_nil in He].
      apply list_elem_of_singleton in He as ->. by eexists _, _. }
  split; [|split; [|split; [|split; [done|]]]].
  - rewrite Ht. unfold leave_log. fold pre. fold (disconnected roomName).
    rewrite <- !app_assoc. cbn [app]. by rewrite <- !app_assoc.
  - intros [[=]|[[=]|(f & a & [= <- <-] & Hf)]]%Hin. done.
  - by intros [[=]|[[]|(f & a & [=] & _)]]%Hin.
  - unfold snapshotMembers. rewrite Hrs, dom_departed, decide_True by done.
    apply not_elem_of_difference. right. by apply elem_of_singleton.
Qed.

Lemma handler_that_comes_back_has_cleaned_up_witness :
  ∃ evs,
    trace (handleWebSocket ws_room_lobby (inl 1%positive)
             [next_message; receive_fails] lobby_of_2).2 =
      trace lobby_of_2 ++ evs ++ [disconnected "lobby"; EvClose 1] ∧
    (disconnected "lobby" ∉ evs) ∧ (EvClose 1 ∉ evs) ∧
    unlocked (handleWebSocket ws_room_lobby (inl 1%positive)
                [next_message; receive_fails] lobby_of_2).2 ∧
    1%positive ∉ snapshotMembers
      (handleWebSocket ws_room_lobby (inl 1%positive)
         [next_message; receive_fails] lobby_of_2).2 "lobby".
Proof.
  apply (handler_that_comes_back_has_cleaned_up ws_room_lobby 1
           [next_message; receive_fails] lobby_of_2 _ (Done ())).
  - reflexivity.
  - vm_compute. discriminate.
  - vm_compute. reflexivity.
  - left. reflexivity.
Defined.

(** On connections, the handler of an accepted connection only ever reads
    from its own, writes to others (never to its own), and closes its own,
    whatever the script and however it ends. *)
Theorem handler_reads_and_closes_only_its_own_connection
    (r : Request) (conn : Conn) (script : list Turn) (w : World) :
  unlocked w →
  ∃ evs,
    trace (handleWebSocket r (inl conn) script w).2 = trace w ++ evs ∧
    (∀ c, EvReadMessage c ∈ evs → c = conn) ∧
    (∀ p messageType data, EvWriteMessage p messageType data ∈ evs → p ≠ conn) ∧
    (∀ c, EvClose c ∈ evs → c = conn).
Proof.
  intros Hu.
  assert (∃ evs, trace (handleWebSocket r (inl conn) script w).2 = trace w ++ evs ∧
                 Forall (own_call conn) evs) as (evs & Ht & Hown).
  { destruct (decide (Get (query r) "room" = "")) as [He|Hne].
    - exists [EvHttpError "Room name is required" StatusBadRequest].
      split; [|by repeat constructor].
      unfold handleWebSocket. by rewrite decide_True.
    - destruct (handleWebSocket_run r conn script w Hu Hne)
        as (o & w' & evs & tail & n & -> & Ht & Hev & H).
      eexists. split; [exact Ht|]. apply own_call_run; [done|].
      cbn zeta in H. destruct o as [[]|v|[c|p| |]|msg]; try done.
      + right. destruct H as (_ & _ & ->). eauto.
      + right. destruct H as (_ & _ & ->). eauto.
      + left. by destruct H as (_ & _ & _ & ->).
      + left. by destruct H as (_ & _ & ->).
      + left. by destruct H as (_ & _ & ->). }
  exists evs. split; [done|]. rewrite Forall_forall in Hown.
  split; [|split].
  - intros c Hc. exact (Hown _ Hc).
  - intros p k d Hp. exact (Hown _ Hp).
  - intros c Hc. exact (Hown _ Hc).
Qed.

Lemma handler_reads_and_closes_only_its_own_connection_witness :
  ∃ evs,
    trace (handleWebSocket ws_room_lobby (inl 1%positive)
             [next_message; receive_fails] lobby_of_2).2 = trace lobby_of_2 ++ evs ∧
    (∀ c, EvReadMessage c ∈ evs → c = 1%positive) ∧
    (∀ p messageType data, EvWriteMessage p messageType data ∈ evs → p ≠ 1%positive) ∧
    (∀ c, EvClose c ∈ evs → c = 1%positive).
Proof.
  apply (handler_reads_and_closes_only_its_own_connection ws_room_lobby 1
           [next_message; receive_fails] lobby_of_2).
  reflexivity.
Defined.

(** * A send that does not come back *)

Lemma join_read_locked roomName conn w :
  readers (lock (bc w)) ≠ 0 →
  join roomName conn w = (Blocked InLock, w).
Proof.
  intros Hr. unfold join, Lock. go_unfold.
  rewrite decide_False; [done|]. by intros [? _].
Qed.

Lemma fanout_outcome_stuck write before p after :
  Forall (λ q, returns (write q)) before → ¬ returns (write p) →
  fanout_outcome write (before ++ p :: after) ≠ Done ().
Proof.
  intros Hall Hp. induction Hall as [|q before Hq _ IH]; simpl.
  - by destruct (write p).
  - by destruct (write q).
Qed.

(** When a send of a fan-out panics or does not return, the read lock stays
    held, and from then on every join and every leave, of any handle and in
    any room, waits in [Lock]: no connection can enter or leave any room. *)
Theorem a_stuck_send_freezes_every_join_and_leave
    (roomName : string) (conn : Conn) (messageType : Z)
    (message : list Byte.byte) (seed : list nat) (write : Conn → WriteResult)
    (w : World) (before after : list Conn) (p : Conn) :
  writer (lock (bc w)) = false →
  peers_of conn (range seed (rooms (bc w) !!! roomName)) = before ++ p :: after →
  Forall (λ q, returns (write q)) before →
  ¬ returns (write p) →
  let w' := (fanout roomName conn messageType message seed write w).2 in
  ∀ r c, join r c w' = (Blocked InLock, w') ∧ leave r c w' = (Blocked InLock, w').
Proof.
  intros Hw Hpeers Hall Hp w' r c.
  assert (readers (lock (bc w')) ≠ 0) as Hr.
  { unfold w'. rewrite fanout_run by done. simpl. rewrite Hpeers.
    pose proof (fanout_outcome_stuck write before p after Hall Hp) as Ho.
    by destruct (fanout_outcome write (before ++ p :: after)) as [[]| | |]. }
  split; [by apply join_read_locked|by apply leave_read_locked].
Qed.

Lemma a_stuck_send_freezes_every_join_and_leave_witness :
  join "hall" 7
    (fanout "lobby" 1 TextMessage hi [1] (write peer_2_hangs) lobby).2 =
    (Blocked InLock,
     (fanout "lobby" 1 TextMessage hi [1] (write peer_2_hangs) lobby).2) ∧
  leave "hall" 7
    (fanout "lobby" 1 TextMessage hi [1] (write peer_2_hangs) lobby).2 =
    (Blocked InLock,
     (fanout "lobby" 1 TextMessage hi [1] (write peer_2_hangs) lobby).2).
Proof.
  apply (a_stuck_send_freezes_every_join_and_leave "lobby" 1 TextMessage hi [1]
           (write peer_2_hangs) lobby [] [3%positive] 2).
  - reflexivity.
  - vm_compute. reflexivity.
  - constructor.
  - intros H. exact H.
Defined.

(** * Witnesses *)

Lemma next_message_returns : turn_returns next_message.
Proof. split; [by eexists _, _|]. intros p. exact I. Qed.


Lemma lobby_changes_returns : turn_returns lobby_changes.
Proof. split; [by eexists _, _|]. intros p. exact I. Qed.

Lemma lobby_of_2_no_empty_room : no_empty_room (rooms (bc lobby_of_2)).
Proof. simpl. intros r m [<- <-]%lookup_singleton_Some. apply insert_non_empty. Qed.

Lemma session_cleans_up_when_the_receive_ends_witness :
  ∃ w' evs rs,
    handleWebSocket ws_room_lobby (inl 1%positive)
      ([next_message] ++ receive_fails :: []) lobby_of_2 = (Done (), w') ∧
    trace w' = trace lobby_of_2 ++ evs ++ leave_log "lobby" 1 rs ++ [EvClose 1] ∧
    (disconnected "lobby" ∉ evs) ∧ (EvClose 1 ∉ evs) ∧
    (∃ pre, leave_log "lobby" 1 rs = pre ++ [disconnected "lobby"] ∧
            disconnected "lobby" ∉ pre) ∧
    unlocked w' ∧
    1%positive ∉ snapshotMembers w' "lobby".
Proof.
  apply (session_cleans_up_when_the_receive_ends ws_room_lobby 1
           [next_message] receive_fails [] lobby_of_2).
  - reflexivity.
  - vm_compute. discriminate.
  - constructor; [apply next_message_returns|constructor].
  - intros messageType message. discriminate.
Defined.

Lemma departed_stays_out_witness :
  ∃ w', run_ops [OpJoin "lobby" 4; OpLeave "lobby" 2; OpJoin "hall" 1] lobby_of_2
          = (Done (), w') ∧
        1%positive ∉ snapshotMembers w' "lobby".
Proof.
  apply (departed_stays_out "lobby" 1
           [OpJoin "lobby" 4; OpLeave "lobby" 2; OpJoin "hall" 1] lobby_of_2).
  - reflexivity.
  - unfold snapshotMembers. simpl.
    rewrite lookup_total_singleton_eq, dom_singleton_L.
    apply not_elem_of_singleton. discriminate.
  - intros Hin. repeat (apply elem_of_cons in Hin as [Hin|Hin]; [discriminate|]).
    by apply elem_of_nil in Hin.
Defined.

Lemma a_panic_in_a_send_blocks_the_cleanup_always_witness :
  ∃ w' evs,
    handleWebSocket ws_room_lobby (inl 1%positive) (send_panics :: [next_message])
      lobby_of_2 = (Blocked InLock, w') ∧
    trace w' = trace lobby_of_2 ++ evs ∧
    (EvClose 1 ∉ evs) ∧
    (disconnected (Get (query ws_room_lobby) "room") ∉ evs) ∧
    1%positive ∈ snapshotMembers w' (Get (query ws_room_lobby) "room") ∧
    read_locked w'.
Proof.
  apply (a_panic_in_a_send_blocks_the_cleanup_always ws_room_lobby 1 2
           send_panics [next_message] lobby_of_2 TextMessage hi
           "concurrent write to websocket connection").
  - reflexivity.
  - vm_compute. discriminate.
  - apply elem_of_dom. vm_compute. by eexists.
  - discriminate.
  - reflexivity.
  - reflexivity.
  - intros q. reflexivity.
Defined.

Lemma session_acts_as_its_join_and_its_leave_witness :
  ∃ w', handleWebSocket ws_room_lobby (inl 5%positive)
          ([lobby_changes] ++ receive_fails :: []) lobby = (Done (), w') ∧
        bc w' = bc (run_ops (OpJoin "lobby" 5 ::
                              others_of ([lobby_changes] ++ [receive_fails]) ++
                              [OpLeave "lobby" 5]) lobby).2.
Proof.
  apply (session_acts_as_its_join_and_its_leave ws_room_lobby 5
           [lobby_changes] receive_fails [] lobby).
  - reflexivity.
  - vm_compute. discriminate.
  - constructor; [apply lobby_changes_returns|constructor].
  - intros messageType message. discriminate.
Defined.

Lemma undisturbed_session_restores_the_registry_witness :
  ∃ w', handleWebSocket ws_room_lobby (inl 1%positive)
          ([next_message] ++ receive_fails :: []) lobby_of_2 = (Done (), w') ∧
        bc w' = bc lobby_of_2.
Proof.
  apply (undisturbed_session_restores_the_registry ws_room_lobby 1
           [next_message] receive_fails [] lobby_of_2).
  - reflexivity.
  - simpl. intros r m [<- <-]%lookup_singleton_Some. apply insert_non_empty.
  - vm_compute. discriminate.
  - unfold snapshotMembers. intros [v Hv]%elem_of_dom. vm_compute in Hv. discriminate.
  - constructor; [apply next_message_returns|constructor].
  - intros messageType message. discriminate.
  - reflexivity.
Defined.


